(** * Global Entry timeslot scraper: a shallow embedding of [main.py]

    The Python program polls the TTP scheduler for open appointment
    timeslots, filters them against an optional cutoff date, loops until some
    location has a slot, and renders a notification text.

    The embedding keeps the program's shape:
    - Python values that the program handles (decoded JSON, [datetime],
      insertion-ordered [dict]s, exceptions) are modelled in [Py] and
      [DateTime];
    - the effects ([requests.get], [random.randint], [time.sleep]) are
      threaded through an explicit [world] by a state-and-exception monad;
    - every function of [main.py] that the properties talk about is
      transcribed under its own name. *)

From Stdlib Require Import ZArith Lia Ascii String.
From Stdlib Require Import Floats.PrimFloat Numbers.Cyclic.Int63.Uint63.
From stdpp Require Import base strings pretty list gmap sorting.

Local Open Scope string_scope.
Local Open Scope list_scope.
Local Open Scope Z_scope.

(** ** Python runtime values *)

Module Py.

#[local] Set Warnings "-register-all".

(** Values as [json.loads] produces them, also used as [dict] keys carried by
    a [KeyError].  An object keeps its fields in the order of the document,
    each key once.  Numbers are the integers: a number with a fraction has no
    value here. *)
Inductive value :=
| VNone
| VBool (b : bool)
| VInt (n : Z)
| VStr (s : string)
| VList (items : list value)
| VDict (fields : list (string * value)).

Fixpoint value_eq_dec (a b : value) {struct a} : Decision (a = b).
Proof.
  refine
    match a, b with
    | VNone, VNone => left eq_refl
    | VBool x, VBool y => cast_if (decide (x = y))
    | VInt x, VInt y => cast_if (decide (x = y))
    | VStr x, VStr y => cast_if (decide (x = y))
    | VList x, VList y => cast_if (@list_eq_dec _ value_eq_dec x y)
    | VDict x, VDict y =>
        cast_if (@list_eq_dec _ (@prod_eq_dec _ _ _ value_eq_dec) x y)
    | _, _ => right _
    end; congruence.
Defined.

#[global] Instance value_eq : EqDecision value := value_eq_dec.

(** [type(v).__name__]. *)
Definition type_name (v : value) : string :=
  match v with
  | VNone => "NoneType"
  | VBool _ => "bool"
  | VInt _ => "int"
  | VStr _ => "str"
  | VList _ => "list"
  | VDict _ => "dict"
  end.

(** What a [ValueError] of this program reports.  [NotJSON] is the
    [JSONDecodeError] of [resp.json()]. *)
Inductive value_error :=
| NonSuccess (status_code : Z) (body : value)
| NotJSON
| TimeDataMismatch (data format : string)
| UnconvertedData (rest : string)
| DateOutOfRange (y m d : Z).

(** What a [TypeError] of this program reports, each with the name of the
    type that was not accepted: an argument of [strptime] that is not a
    string, a value that cannot be iterated, a value that cannot be indexed
    by a string, a key that cannot be hashed. *)
Inductive type_error :=
| StrptimeArgument (kind : string)
| NotIterable (kind : string)
| NoStringIndex (kind : string)
| Unhashable (kind : string).

(** [RequestException] is what [requests.get] raises when no response comes
    back. *)
Inductive exn :=
| ValueError (why : value_error)
| KeyError (key : value)
| TypeError (what : type_error)
| RequestException.

Inductive result (A : Type) :=
| Ok (a : A)
| Raise (e : exn).
Arguments Ok {A} a.
Arguments Raise {A} e.

#[global] Instance result_ret : MRet result := λ A a, Ok a.
#[global] Instance result_bind : MBind result := λ A B f r,
  match r with
  | Ok a => f a
  | Raise e => Raise e
  end.

Definition is_ok {A} (r : result A) : bool :=
  match r with Ok _ => true | Raise _ => false end.

(** The field [k] of a decoded object. *)
#[global] Instance fields_lookup
  : Lookup string value (list (string * value)) :=
  fix go k fields :=
    match fields with
    | [] => None
    | (k', v) :: fields' => if decide (k' = k) then Some v else go k fields'
    end.

(** [v[k]] for a string [k]: only a [dict] can be indexed by a string. *)
Definition subscript (v : value) (k : string) : result value :=
  match v with
  | VDict fields =>
      match fields !! k with
      | Some x => Ok x
      | None => Raise (KeyError (VStr k))
      end
  | _ => Raise (TypeError (NoStringIndex (type_name v)))
  end.

(** What [for x in v] goes through: the items of a list, the keys of a
    [dict], the characters of a string; nothing else can be iterated. *)
Definition iterate (v : value) : result (list value) :=
  match v with
  | VList items => Ok items
  | VDict fields => Ok (VStr <$> fields.*1)
  | VStr s =>
      Ok ((λ c, VStr (String c EmptyString)) <$> list_ascii_of_string s)
  | _ => Raise (TypeError (NotIterable (type_name v)))
  end.

(** Lists and [dict]s have no hash. *)
Definition hashable (v : value) : bool :=
  match v with
  | VList _ | VDict _ => false
  | _ => true
  end.

(** An insertion-ordered [dict] with integer keys: [d[k] = v] overwrites the
    value of an existing key in place and appends a new key at the end. *)
Fixpoint setitem {V} (k : Z) (v : V) (d : list (Z * V)) : list (Z * V) :=
  match d with
  | [] => [(k, v)]
  | (k', v') :: d' =>
      if decide (k' = k) then (k', v) :: d' else (k', v') :: setitem k v d'
  end.

Fixpoint getitem_opt {V} (k : Z) (d : list (Z * V)) : option V :=
  match d with
  | [] => None
  | (k', v') :: d' => if decide (k' = k) then Some v' else getitem_opt k d'
  end.

Definition newline : string := String (ascii_of_nat 10) EmptyString.

(** [sep.join(parts)]. *)
Fixpoint join (sep : string) (parts : list string) : string :=
  match parts with
  | [] => ""
  | [p] => p
  | p :: rest => p +:+ sep +:+ join sep rest
  end.

Fixpoint startswith (p s : string) : bool :=
  match p, s with
  | EmptyString, _ => true
  | String a p', String b s' => bool_decide (a = b) && startswith p' s'
  | String _ _, EmptyString => false
  end.

(** [s.replace(old, new)] for a non-empty [old]: occurrences are found left to
    right and do not overlap.  [skip] counts the characters of a matched
    occurrence that are still to be dropped. *)
Fixpoint replace_from (old new : string) (skip : nat) (s : string) : string :=
  match s with
  | EmptyString => EmptyString
  | String c s' =>
      match skip with
      | S k => replace_from old new k s'
      | O =>
          if startswith old s
          then new +:+ replace_from old new (Nat.pred (String.length old)) s'
          else String c (replace_from old new O s')
      end
  end.

Definition replace (old new s : string) : string := replace_from old new O s.

(** [str(n)] and [format] of an integer. *)
Definition str_int (n : Z) : string := pretty n.

(** [float(n)], exact for the small integers of this program. *)
Definition float_of_int (n : Z) : float :=
  match n with
  | Z0 => 0%float
  | Zpos _ => PrimFloat.of_uint63 (Uint63.of_Z n)
  | Zneg p => PrimFloat.opp (PrimFloat.of_uint63 (Uint63.of_Z (Zpos p)))
  end.

End Py.
Export Py.

(** ** [datetime] *)

Module DateTime.

(** A naive [datetime].  Both formats of the program stop at the minute, so
    seconds and microseconds are always zero and are left out. *)
Record datetime := mk_datetime {
  year : Z;
  month : Z;
  day : Z;
  hour : Z;
  minute : Z
}.

#[global] Instance datetime_eq_dec : EqDecision datetime.
Proof. solve_decision. Defined.

Definition lex (c1 c2 : comparison) : comparison :=
  match c1 with
  | Eq => c2
  | _ => c1
  end.

(** Field-wise, most significant first, as [datetime.__lt__] compares. *)
Definition compare (a b : datetime) : comparison :=
  lex (year a ?= year b)
   (lex (month a ?= month b)
    (lex (day a ?= day b)
     (lex (hour a ?= hour b) (minute a ?= minute b)))).

Definition ltb (a b : datetime) : bool :=
  match compare a b with Lt => true | _ => false end.

Definition lt (a b : datetime) : Prop := compare a b = Lt.
Definition le (a b : datetime) : Prop := compare a b ≠ Gt.

#[global] Instance le_dec a b : Decision (le a b).
Proof. unfold le. solve_decision. Defined.

#[global] Instance lt_dec a b : Decision (lt a b).
Proof. unfold lt. solve_decision. Defined.

Definition is_leap (y : Z) : bool :=
  (y mod 4 =? 0) && (negb (y mod 100 =? 0) || (y mod 400 =? 0)).

Definition days_in_month (y m : Z) : Z :=
  match m with
  | 1 | 3 | 5 | 7 | 8 | 10 | 12 => 31
  | 4 | 6 | 9 | 11 => 30
  | 2 => if is_leap y then 29 else 28
  | _ => 0
  end.

Definition days_before_year (y : Z) : Z :=
  let p := y - 1 in p * 365 + p / 4 - p / 100 + p / 400.

Definition days_before_month (y m : Z) : Z :=
  foldr (λ k acc, days_in_month y k + acc) 0 (seqZ 1 (m - 1)).

Definition toordinal (d : datetime) : Z :=
  days_before_year (year d) + days_before_month (year d) (month d) + day d.

(** Monday is 0. *)
Definition weekday (d : datetime) : Z := (toordinal d + 6) mod 7.

Definition valid (d : datetime) : bool :=
  (1 <=? year d) && (year d <=? 9999) &&
  (1 <=? month d) && (month d <=? 12) &&
  (1 <=? day d) && (day d <=? days_in_month (year d) (month d)) &&
  (0 <=? hour d) && (hour d <=? 23) &&
  (0 <=? minute d) && (minute d <=? 59).

(** *** Format strings *)

Inductive item :=
| Lit (c : ascii)
| Dir (c : ascii).

Fixpoint items (format : string) : list item :=
  match format with
  | EmptyString => []
  | String c rest =>
      if bool_decide (c = "%"%char) then
        match rest with
        | String d rest' => Dir d :: items rest'
        | EmptyString => [Lit c]
        end
      else Lit c :: items rest
  end.

Definition code (c : ascii) : Z := Z.of_nat (nat_of_ascii c).

Definition between (lo hi c : ascii) : bool :=
  (code lo <=? code c) && (code c <=? code hi).

Definition is_digit : ascii → bool := between "0" "9".

(** [int] of one matched character; the blank of [" [1-9]"] counts for 0. *)
Definition digit (c : ascii) : Z := if is_digit c then code c - 48 else 0.

Definition lower (c : ascii) : ascii :=
  if between "A" "Z" c then ascii_of_nat (nat_of_ascii c + 32) else c.

(** One alternative of a directive's regular expression: two characters, or
    one character, each from a class. *)
Definition two (p q : ascii → bool) (s : string) : list (Z * string) :=
  match s with
  | String a (String b r) => if p a && q b then [(10 * digit a + digit b, r)] else []
  | _ => []
  end.

Definition one (p : ascii → bool) (s : string) : list (Z * string) :=
  match s with
  | String a r => if p a then [(digit a, r)] else []
  | _ => []
  end.

Definition four (s : string) : list (Z * string) :=
  match s with
  | String a (String b (String c (String d r))) =>
      if is_digit a && is_digit b && is_digit c && is_digit d
      then [(1000 * digit a + 100 * digit b + 10 * digit c + digit d, r)]
      else []
  | _ => []
  end.

Definition only (c : ascii) : ascii → bool := λ x, bool_decide (x = c).

(** The alternatives of a directive, in the order the regular expression of
    [_strptime] tries them, each with the field it sets:
    [%Y] is [\d\d\d\d], [%m] is [1[0-2]|0[1-9]|[1-9]],
    [%d] is [3[01]|[12]\d|0[1-9]|[1-9]| [1-9]], [%H] is [2[0-3]|[0-1]\d|\d],
    [%M] is [[0-5]\d|\d].  Only the directives of this program's formats are
    interpreted, on ASCII data. *)
Definition alternatives (c : ascii) (d : datetime) (s : string)
  : list (datetime * string) :=
  if bool_decide (c = "Y"%char) then
    prod_map (λ v, mk_datetime v (month d) (day d) (hour d) (minute d)) id
      <$> four s
  else if bool_decide (c = "m"%char) then
    prod_map (λ v, mk_datetime (year d) v (day d) (hour d) (minute d)) id
      <$> (two (only "1") (between "0" "2") s ++ two (only "0") (between "1" "9") s
           ++ one (between "1" "9") s)
  else if bool_decide (c = "d"%char) then
    prod_map (λ v, mk_datetime (year d) (month d) v (hour d) (minute d)) id
      <$> (two (only "3") (between "0" "1") s ++ two (between "1" "2") is_digit s
           ++ two (only "0") (between "1" "9") s ++ one (between "1" "9") s
           ++ two (only " ") (between "1" "9") s)
  else if bool_decide (c = "H"%char) then
    prod_map (λ v, mk_datetime (year d) (month d) (day d) v (minute d)) id
      <$> (two (only "2") (between "0" "3") s ++ two (between "0" "1") is_digit s
           ++ one is_digit s)
  else if bool_decide (c = "M"%char) then
    prod_map (λ v, mk_datetime (year d) (month d) (day d) (hour d) v) id
      <$> (two (between "0" "5") is_digit s ++ one is_digit s)
  else [].

(** A literal of the format matches itself, letters in either case (the
    pattern is compiled with [IGNORECASE]). *)
Definition literal (c : ascii) (d : datetime) (s : string)
  : list (datetime * string) :=
  match s with
  | String a r => if bool_decide (lower a = lower c) then [(d, r)] else []
  | EmptyString => []
  end.

Fixpoint first_some {A B} (f : A → option B) (l : list A) : option B :=
  match l with
  | [] => None
  | a :: l' =>
      match f a with
      | Some b => Some b
      | None => first_some f l'
      end
  end.

(** [re.match]: the first match in backtracking order, with what is left of
    the data. *)
Fixpoint re_match (its : list item) (d : datetime) (s : string)
  : option (datetime * string) :=
  match its with
  | [] => Some (d, s)
  | it :: its' =>
      first_some (λ '(d', s'), re_match its' d' s')
        match it with
        | Lit c => literal c d s
        | Dir c => alternatives c d s
        end
  end.

(** Fields that the format does not set. *)
Definition defaults : datetime := mk_datetime 1900 1 1 0 0.

(** [datetime.strptime(data, format)]. *)
Definition strptime (data format : string) : result datetime :=
  match re_match (items format) defaults data with
  | None => Raise (ValueError (TimeDataMismatch data format))
  | Some (d, EmptyString) =>
      if valid d then Ok d
      else Raise (ValueError (DateOutOfRange (year d) (month d) (day d)))
  | Some (_, rest) => Raise (ValueError (UnconvertedData rest))
  end.

(** [strptime] on a decoded JSON value: anything but a [str] is a
    [TypeError]. *)
Definition strptime_value (v : value) (format : string) : result datetime :=
  match v with
  | VStr data => strptime data format
  | _ => Raise (TypeError (StrptimeArgument (type_name v)))
  end.

(** *** Rendering *)

Definition pad2 (n : Z) : string :=
  if n <? 10 then "0" +:+ str_int n else str_int n.

Definition month_name (m : Z) : string :=
  match m with
  | 1 => "January" | 2 => "February" | 3 => "March" | 4 => "April"
  | 5 => "May" | 6 => "June" | 7 => "July" | 8 => "August"
  | 9 => "September" | 10 => "October" | 11 => "November" | _ => "December"
  end.

Definition day_abbr (w : Z) : string :=
  match w with
  | 0 => "Mon" | 1 => "Tue" | 2 => "Wed" | 3 => "Thu"
  | 4 => "Fri" | 5 => "Sat" | _ => "Sun"
  end.

Definition hour12 (h : Z) : Z := if h mod 12 =? 0 then 12 else h mod 12.

(** The directives of the program's output format, in the C locale. *)
Definition render (c : ascii) (d : datetime) : string :=
  if bool_decide (c = "B"%char) then month_name (month d)
  else if bool_decide (c = "d"%char) then pad2 (day d)
  else if bool_decide (c = "Y"%char) then str_int (year d)
  else if bool_decide (c = "a"%char) then day_abbr (weekday d)
  else if bool_decide (c = "I"%char) then pad2 (hour12 (hour d))
  else if bool_decide (c = "M"%char) then pad2 (minute d)
  else if bool_decide (c = "p"%char) then (if hour d <? 12 then "AM" else "PM")
  else String "%" (String c EmptyString).

(** [d.strftime(format)]. *)
Definition strftime (d : datetime) (format : string) : string :=
  foldr (λ it acc,
    match it with
    | Lit c => String c acc
    | Dir c => render c d +:+ acc
    end) "" (items format).

End DateTime.
Export DateTime.

(** ** The outside world *)

Module World.

(** What [requests.get] hands back: the status, and the body decoded when
    it is JSON. *)
Record response := mk_response {
  status_code : Z;
  body : option value
}.

(** [resp.json()]. *)
Definition json (resp : response) : result value :=
  match body resp with
  | Some doc => Ok doc
  | None => Raise (ValueError NotJSON)
  end.

Inductive event :=
| Get (url : string)
| Sleep (seconds : float).

(** The remote service answers the [n]-th request of the run by its URL, or
    not at all; the random source yields its [n]-th draw.  [trace] lists the
    requests and sleeps performed so far, oldest first. *)
Record world := mk_world {
  remote : nat → string → option response;
  entropy : nat → Z;
  requests_made : nat;
  draws_made : nat;
  trace : list event
}.

(** Computations that read and change the world and may raise. *)
Definition M (A : Type) : Type := world → result A * world.

#[global] Instance M_ret : MRet M := λ A a w, (Ok a, w).
#[global] Instance M_bind : MBind M := λ A B f m w,
  match m w with
  | (Ok a, w') => f a w'
  | (Raise e, w') => (Raise e, w')
  end.

Definition raise {A} (e : exn) : M A := λ w, (Raise e, w).

Definition lift {A} (r : result A) : M A := λ w, (r, w).

Definition requests_get (url : string) : M response := λ w,
  (match remote w (requests_made w) url with
   | Some resp => Ok resp
   | None => Raise RequestException
   end,
   mk_world (remote w) (entropy w) (S (requests_made w)) (draws_made w)
     (trace w ++ [Get url])).

(** [random.randint(a, b)]: an integer of the closed range. *)
Definition randint (a b : Z) : M Z := λ w,
  (Ok (a + entropy w (draws_made w) mod (b - a + 1)),
   mk_world (remote w) (entropy w) (requests_made w) (S (draws_made w))
     (trace w)).

Definition sleep (seconds : float) : M unit := λ w,
  (Ok tt,
   mk_world (remote w) (entropy w) (requests_made w) (draws_made w)
     (trace w ++ [Sleep seconds])).

End World.
Export World.

(** ** The program *)

Definition REQUEST_DELAY : Z := 2.

Definition TIMESLOT_URL (limit location_id : Z) : string :=
  "https://ttp.cbp.dhs.gov/schedulerapi/slots?orderBy=soonest&limit="
  +:+ str_int limit +:+ "&locationId=" +:+ str_int location_id
  +:+ "&minimum=1".

(** The value [delay] returns when [random.randint(-10, 10)] draws [r]:
    [10 * REQUEST_DELAY / 2] is a true division of integers, so everything
    after it is binary64 arithmetic. *)
Definition jitter (r : Z) : float :=
  (float_of_int REQUEST_DELAY
   + float_of_int r / (float_of_int (10 * REQUEST_DELAY) / float_of_int 2))%float.

Definition delay : M float :=
  r ← randint (-10) 10;
  mret (jitter r).

(** In the branch of a status other than 200 the message is formatted first,
    and formatting it calls [resp.json()]. *)
Definition make_request (url : string) : M value :=
  resp ← requests_get url;
  if bool_decide (status_code resp ≠ 200) then
    doc ← lift (json resp);
    raise (ValueError (NonSuccess (status_code resp) doc))
  else lift (json resp).

Definition parse_timeslot_datetime (timeslot : value) : result datetime :=
  stamp ← subscript timeslot "startTimestamp";
  strptime_value stamp "%Y-%m-%dT%H:%M".

(** [sorted(list(set(timeslots)))]: the distinct values in ascending order.
    The order in which the set is listed does not survive the sort. *)
Definition sorted_set (timeslots : list datetime) : list datetime :=
  merge_sort DateTime.le (remove_dups timeslots).

Definition get_timeslots_for_location_id (location_id limit : Z)
  : M (list datetime) :=
  resp_dict ← make_request (TIMESLOT_URL limit location_id);
  timeslots ← lift (records ← iterate resp_dict;
                    mapM parse_timeslot_datetime records);
  mret (sorted_set timeslots).

(** The filter of the comprehension in [get_timeslots_for_location_ids]:
    [before] is parsed again at each timeslot, and not at all when there is
    none. *)
Fixpoint keep_before (before : option string) (timeslots : list datetime)
  : result (list datetime) :=
  match timeslots with
  | [] => Ok []
  | timeslot :: rest =>
      keep ← match before with
             | None => Ok true
             | Some b =>
                 cutoff ← strptime b "%Y-%m-%d";
                 Ok (DateTime.ltb timeslot cutoff)
             end;
      kept ← keep_before before rest;
      Ok (if keep : bool then timeslot :: kept else kept)
  end.

(** The [for location_id in location_ids] loop, from a given [all_timeslots]. *)
Fixpoint for_location_ids (before : option string) (limit : Z)
    (location_ids : list Z) (all_timeslots : list (Z * list datetime))
  : M (list (Z * list datetime)) :=
  match location_ids with
  | [] => mret all_timeslots
  | location_id :: rest =>
      fetched ← get_timeslots_for_location_id location_id limit;
      timeslots ← lift (keep_before before fetched);
      pause ← delay;
      _ ← sleep pause;
      for_location_ids before limit rest
        (setitem location_id timeslots all_timeslots)
  end.

Definition get_timeslots_for_location_ids (location_ids : list Z)
    (before : option string) (limit : Z) : M (list (Z * list datetime)) :=
  for_location_ids before limit location_ids [].

Definition banner : string := "✈️ Global Entry Timeslot Bot ✈️".

Definition timeslot_text (timeslot : datetime) : string :=
  "    " +:+ replace " 0" " " (strftime timeslot "%B %d, %Y (%a) @ %I:%M %p").

(** [location_mapping[location_id]]. *)
Definition label_of (location_mapping : gmap Z string) (location_id : Z)
  : result string :=
  match location_mapping !! location_id with
  | Some label => Ok label
  | None => Raise (KeyError (VInt location_id))
  end.

Definition location_text (location_mapping : gmap Z string) (location_id : Z)
    (timeslots : list datetime) : result string :=
  label ← label_of location_mapping location_id;
  Ok (join newline
        ((label +:+ " (" +:+ str_int location_id +:+ ")")
           :: (timeslot_text <$> timeslots))).

(** The [for location_id, timeslots in all_timeslots.items()] loop. *)
Fixpoint for_items (location_mapping : gmap Z string)
    (all_timeslots : list (Z * list datetime)) (notification_texts : list string)
  : result (list string) :=
  match all_timeslots with
  | [] => Ok notification_texts
  | (location_id, timeslots) :: rest =>
      if bool_decide (0 < length timeslots)%nat then
        text ← location_text location_mapping location_id timeslots;
        for_items location_mapping rest (notification_texts ++ [text])
      else for_items location_mapping rest notification_texts
  end.

Definition generate_notification_texts (location_mapping : gmap Z string)
    (all_timeslots : list (Z * list datetime)) (silent : bool)
  : result (list string) :=
  notification_texts ← for_items location_mapping all_timeslots [banner];
  if bool_decide (length notification_texts = 1%nat) then
    if silent then Ok []
    else Ok (notification_texts ++ ["No open timeslots found!"])
  else Ok notification_texts.

(** [any(val for val in ats.values())]: a list is true when it is not empty. *)
Definition any_values (ats : list (Z * list datetime)) : bool :=
  existsb (λ '(_, val), bool_decide (val ≠ [])) ats.

(** The [while keep_running] loop of [__main__].  The loop has no bound of its
    own; [rounds] bounds how many times its body may run, and [None] says that
    the loop was still running when the bound was reached. *)
Fixpoint poll_until_found (rounds : nat) (location_ids : list Z)
    (before : option string) (limit : Z) (w : world)
  : option (result (list (Z * list datetime)) * world) :=
  match rounds with
  | O => None
  | S rounds' =>
      match get_timeslots_for_location_ids location_ids before limit w with
      | (Ok ats, w') =>
          if any_values ats then Some (Ok ats, w')
          else
            match (pause ← delay; sleep pause) w' with
            | (Ok _, w'') =>
                poll_until_found rounds' location_ids before limit w''
            | (Raise e, w'') => Some (Raise e, w'')
            end
      | (Raise e, w') => Some (Raise e, w')
      end
  end.

(** [__main__] from the loop on, up to the text it hands to [send];
    [loc_mapping] is what [import_mapping_from_url] returned. *)
Definition main (rounds : nat) (loc_mapping : gmap Z string)
    (location_ids : list Z) (before : option string) (limit : Z)
    (silent : bool) (w : world) : option (result (list string) * world) :=
  match poll_until_found rounds location_ids before limit w with
  | None => None
  | Some (Ok ats, w') =>
      Some (generate_notification_texts loc_mapping ats silent, w')
  | Some (Raise e, w') => Some (Raise e, w')
  end.

(** ** Worlds reached by the primitive effects *)

(** What [make_request] returns when the service gives [reply]. *)
Definition answer (reply : option response) : result value :=
  match reply with
  | None => Raise RequestException
  | Some resp =>
      doc ← json resp;
      if bool_decide (status_code resp ≠ 200)
      then Raise (ValueError (NonSuccess (status_code resp) doc))
      else Ok doc
  end.

(** The world once [url] has been requested. *)
Definition requested (url : string) (w : world) : world :=
  mk_world (remote w) (entropy w) (S (requests_made w)) (draws_made w)
    (trace w ++ [Get url]).

(** The draw that the next [random.randint(-10, 10)] makes. *)
Definition next_draw (w : world) : Z :=
  -10 + entropy w (draws_made w) mod (10 - -10 + 1).

(** The world once [time.sleep(delay())] has returned. *)
Definition slept (w : world) : world :=
  mk_world (remote w) (entropy w) (requests_made w) (S (draws_made w))
    (trace w ++ [Sleep (jitter (next_draw w))]).

(** What a round over [location_ids] adds to the trace when the fetches are
    followed by the sleeps [pauses]: each request and then its sleep, location
    by location. *)
Definition round_events (limit : Z) (location_ids : list Z)
    (pauses : list float) : list event :=
  concat (zip_with (λ location_id pause,
                      [Get (TIMESLOT_URL limit location_id); Sleep pause])
            location_ids pauses).

(** A pause that [delay] can produce. *)
Definition jittered (pause : float) : Prop :=
  ∃ r, -10 ≤ r ≤ 10 ∧ pause = jitter r.

(** ** Sample runs *)

(** A record of the timeslot endpoint. *)
Definition slot (stamp : string) : value :=
  VDict [("startTimestamp", VStr stamp)].

(** A response with a JSON array for a body. *)
Definition reply (status : Z) (records : list value) : option response :=
  Some (mk_response status (Some (VList records))).

(** A service with nothing open during the first two requests, and afterwards
    one slot, on 1 March 2024 at 09:00, at location 5446 only. *)
Definition scenario_remote : nat → string → option response := λ n url,
  if bool_decide (n < 2)%nat then reply 200 []
  else if bool_decide (url = TIMESLOT_URL 10 5446)
       then reply 200 [slot "2024-03-01T09:00"]
       else reply 200 [].

Definition scenario_mapping : gmap Z string :=
  {[ 5446 := "Location A (City, ST)" ]}.

(** A service that answers its first request with four records, two of them
    equal, the second with none, the third with one, and then fails. *)
Definition busy_remote : nat → string → option response := λ n url,
  match n with
  | 0%nat =>
      reply 200
        [slot "2024-03-01T00:00"; slot "2024-02-29T23:59";
         slot "2024-03-05T09:00"; slot "2024-02-29T23:59"]
  | 1%nat => reply 200 []
  | 2%nat => reply 200 [slot "2024-02-10T08:15"]
  | _ => reply 503 []
  end.

(** A service whose first answer has status 200 and a body that is not
    JSON, whose second answer has status 503 and such a body, whose third
    answer is a JSON object, and which then stops answering. *)
Definition broken_remote : nat → string → option response := λ n url,
  match n with
  | 0%nat => Some (mk_response 200 None)
  | 1%nat => Some (mk_response 503 None)
  | 2%nat =>
      Some (mk_response 200 (Some (VDict [("error", VStr "unavailable")])))
  | _ => None
  end.

(** A run that has made no request yet. *)
Definition fresh (service : nat → string → option response)
    (source : nat → Z)
  : world :=
  mk_world service source 0 0 [].

(** ** The location names, the notifier and the whole run *)

Definition MAPPING_URL : string :=
  "https://ttp.cbp.dhs.gov/schedulerapi/locations/?temporary=false&inviteOnly=false&operational=true&serviceName=Global%20Entry".

(** [repr] of a string, the one piece of Python's rendering that is taken as
    given: how [str] quotes and escapes a string inside a list or a
    [dict]. *)
Section rendering.
Context (repr_str : string → string).

(** [repr(v)]. *)
Fixpoint repr (v : value) : string :=
  match v with
  | VNone => "None"
  | VBool true => "True"
  | VBool false => "False"
  | VInt n => str_int n
  | VStr s => repr_str s
  | VList items => "[" +:+ join ", " (repr <$> items) +:+ "]"
  | VDict fields =>
      "{" +:+ join ", " ((λ '(k, x), repr_str k +:+ ": " +:+ repr x) <$> fields)
      +:+ "}"
  end.

(** [str(v)], which is what ["{}".format(v)] puts in. *)
Definition str_value (v : value) : string :=
  match v with
  | VStr s => s
  | _ => repr v
  end.

(** The value a [dict] key is looked up as: [True] and [False] compare equal
    to, and hash like, [1] and [0]. *)
Definition key_class (k : value) : value :=
  match k with
  | VBool b => VInt (if b then 1 else 0)
  | _ => k
  end.

(** [d[k] = x] on a [dict], for a key that has a hash: an equal key keeps its
    place (and the key object first stored), a new key goes to the end. *)
Fixpoint setitem_key (k : value) (x : string) (d : list (value * string))
  : list (value * string) :=
  match d with
  | [] => [(k, x)]
  | (k', x') :: d' =>
      if decide (key_class k' = key_class k) then (k', x) :: d'
      else (k', x') :: setitem_key k x d'
  end.

(** The entry with a key equal to [k]. *)
Fixpoint find_key (d : list (value * string)) (k : value) : result string :=
  match d with
  | [] => Raise (KeyError k)
  | (k', x') :: d' =>
      if decide (key_class k' = key_class k) then Ok x' else find_key d' k
  end.

(** [d[k]]: the key is hashed before it is looked for. *)
Definition getitem_key (d : list (value * string)) (k : value)
  : result string :=
  if hashable k then find_key d k
  else Raise (TypeError (Unhashable (type_name k))).

(** ["{} ({}, {})".format(location["name"], location["city"],
    location["state"])]. *)
Definition location_label (location : value) : result string :=
  name ← subscript location "name";
  city ← subscript location "city";
  state ← subscript location "state";
  Ok (str_value name +:+ " (" +:+ str_value city +:+ ", " +:+ str_value state
      +:+ ")").

(** The dictionary comprehension of [import_mapping_from_url], from a given
    dictionary: for each location the key is computed, then the label, then
    the entry is stored, which hashes the key. *)
Fixpoint mapping_comprehension (locations : list value)
    (mapping : list (value * string)) : result (list (value * string)) :=
  match locations with
  | [] => Ok mapping
  | location :: rest =>
      key ← subscript location "id";
      label ← location_label location;
      if hashable key
      then mapping_comprehension rest (setitem_key key label mapping)
      else Raise (TypeError (Unhashable (type_name key)))
  end.

Definition import_mapping_from_url : M (list (value * string)) :=
  resp_dict ← make_request MAPPING_URL;
  lift (locations ← iterate resp_dict; mapping_comprehension locations []).

(** The mapping as the formatter reads it, by integer location ids:
    [int_keys d !! n] is what [d[n]] finds. *)
Fixpoint int_keys (d : list (value * string)) : gmap Z string :=
  match d with
  | [] => ∅
  | (k, x) :: d' =>
      match key_class k with
      | VInt n => <[n := x]> (int_keys d')
      | _ => int_keys d'
      end
  end.

(** The constants of the [secrets] module, which is not part of the
    sources. *)
Record secrets := mk_secrets {
  APP_PASS : string;
  SEND_TO : string;
  SEND_FROM : string
}.

(** What [send] does to the outside: lines printed, and mails handed to the
    SMTP client with the account they are sent from. *)
Inductive output :=
| Printed (message : string)
| Mailed (user password to subject : string) (contents : list string).

Definition send (account : secrets) (notification_texts : list string)
  : list output :=
  (Printed <$> notification_texts)
  ++ [Mailed (SEND_FROM account) (APP_PASS account) (SEND_TO account)
        "Global Entry - book Quick!" notification_texts].

(** [__main__] after the arguments are parsed: the mapping is fetched, the
    loop runs (at most [rounds] times), the text is generated and sent. *)
Definition program (rounds : nat) (account : secrets) (location_ids : list Z)
    (before : option string) (limit : Z) (silent : bool) (w : world)
  : option (result (list output) * world) :=
  match import_mapping_from_url w with
  | (Ok loc_mapping, w1) =>
      match main rounds (int_keys loc_mapping) location_ids before limit
              silent w1 with
      | None => None
      | Some (Ok notification_text, w2) =>
          Some (Ok (send account notification_text), w2)
      | Some (Raise e, w2) => Some (Raise e, w2)
      end
  | (Raise e, w1) => Some (Raise e, w1)
  end.

End rendering.

(** A rendering of strings for the sample runs: between single quotes. *)
Definition quoted (s : string) : string := "'" +:+ s +:+ "'".

(** The location ids of a list, each once, in the order of their first
    occurrence: the keys of the dictionary a round builds. *)
Definition in_order_of_appearance (location_ids : list Z) : list Z :=
  foldl (λ seen location_id,
           if decide (location_id ∈ seen) then seen else seen ++ [location_id])
    [] location_ids.

(** The block of a location in the notification. *)
Definition block (label : string) (location_id : Z) (timeslots : list datetime)
  : string :=
  join newline
    ((label +:+ " (" +:+ str_int location_id +:+ ")")
       :: (timeslot_text <$> timeslots)).

(** The blocks of a notification: one for each location with timeslots and a
    label, in the order of the dictionary. *)
Definition blocks (location_mapping : gmap Z string)
    (all_timeslots : list (Z * list datetime)) : list string :=
  omap (λ '(location_id, timeslots),
          match timeslots with
          | [] => None
          | _ :: _ =>
              (λ label, block label location_id timeslots)
                <$> location_mapping !! location_id
          end)
    all_timeslots.

(** A string without blanks. *)
Fixpoint spaceless (s : string) : bool :=
  match s with
  | EmptyString => true
  | String c s' => negb (bool_decide (c = " "%char)) && spaceless s'
  end.

(** A string without blanks that does not begin with the digit 0. *)
Definition plain_number (s : string) : bool :=
  match s with
  | EmptyString => false
  | String c _ => negb (bool_decide (c = "0"%char)) && spaceless s
  end.

(** A request or a sleep that a run over [location_ids] may make after the
    mapping is there. *)
Definition polling_event (limit : Z) (location_ids : list Z) (ev : event)
  : Prop :=
  match ev with
  | Get url =>
      ∃ location_id,
        location_id ∈ location_ids ∧ url = TIMESLOT_URL limit location_id
  | Sleep pause => jittered pause
  end.

(** A service that knows two locations and then behaves like
    [scenario_remote], one request later. *)
Definition named_remote : nat → string → option response := λ n url,
  match n with
  | 0%nat =>
      reply 200
        [VDict [("id", VInt 5446); ("name", VStr "Location A");
                ("city", VStr "City"); ("state", VStr "ST")];
         VDict [("id", VInt 5020); ("name", VStr "Location B");
                ("city", VStr "Town"); ("state", VStr "NY")]]
  | S n' => scenario_remote n' url
  end.


(** * Properties *)

(** ** Order on [datetime] *)

Module DateTimeFacts.

Lemma lex_Lt c1 c2 : lex c1 c2 = Lt ↔ c1 = Lt ∨ (c1 = Eq ∧ c2 = Lt).
Proof. destruct c1; simpl; intuition congruence. Qed.

Lemma lex_Gt c1 c2 : lex c1 c2 = Gt ↔ c1 = Gt ∨ (c1 = Eq ∧ c2 = Gt).
Proof. destruct c1; simpl; intuition congruence. Qed.

Lemma lex_Eq c1 c2 : lex c1 c2 = Eq ↔ c1 = Eq ∧ c2 = Eq.
Proof. destruct c1; simpl; intuition congruence. Qed.

Ltac fields :=
  unfold DateTime.lt, DateTime.le, DateTime.compare in *;
  rewrite ?lex_Lt, ?lex_Gt, ?lex_Eq, ?Z.compare_lt_iff, ?Z.compare_gt_iff,
    ?Z.compare_eq_iff in *.

Lemma compare_Eq a b : DateTime.compare a b = Eq ↔ a = b.
Proof.
  destruct a, b; fields; simpl. split.
  - intros (-> & -> & -> & -> & ->). reflexivity.
  - intros [= -> -> -> -> ->]. lia.
Qed.

Lemma compare_Lt_Gt a b : DateTime.compare a b = Lt ↔ DateTime.compare b a = Gt.
Proof. destruct a, b; fields; simpl. lia. Qed.

Lemma ltb_lt a b : DateTime.ltb a b = true ↔ DateTime.lt a b.
Proof.
  unfold DateTime.ltb, DateTime.lt.
  destruct (DateTime.compare a b); intuition congruence.
Qed.

Lemma lt_irrefl a : ¬ DateTime.lt a a.
Proof. destruct a; fields; simpl. lia. Qed.

Lemma lt_le_ne a b : DateTime.lt a b ↔ DateTime.le a b ∧ a ≠ b.
Proof.
  rewrite <- (compare_Eq a b). unfold DateTime.lt, DateTime.le.
  destruct (DateTime.compare a b); intuition congruence.
Qed.

#[global] Instance le_total : Total DateTime.le.
Proof. intros a b. destruct a, b; fields; simpl. lia. Qed.

#[global] Instance le_trans : Transitive DateTime.le.
Proof. intros a b c. destruct a, b, c; fields; simpl. lia. Qed.

#[global] Instance le_refl : Reflexive DateTime.le.
Proof. intros a. destruct a; fields; simpl. lia. Qed.

#[global] Instance le_antisym : AntiSymm (=) DateTime.le.
Proof.
  intros a b Hab Hba. apply compare_Eq.
  destruct a, b; fields; simpl in *. lia.
Qed.

End DateTimeFacts.
Import DateTimeFacts.

(** ** Sorting and the set of timeslots *)

Lemma Sorted_adjacent {A} (R : relation A) (l : list A) :
Sorted R l → ∀ i a b, l !! i = Some a → l !! S i = Some b → R a b.
Proof.
induction 1 as [|x l Hl IH Hd]; intros i a b Ha Hb; [done|].
destruct i as [|i]; simpl in *.
- injection Ha as ->. destruct Hd as [|y l' Hxy]; simpl in *; [done|].
  by injection Hb as ->.
- eauto.
Qed.

Lemma sorted_set_NoDup ts : NoDup (sorted_set ts).
Proof.
unfold sorted_set. rewrite merge_sort_Permutation. apply NoDup_remove_dups.
Qed.

Lemma sorted_set_elem_of ts t : t ∈ sorted_set ts ↔ t ∈ ts.
Proof.
unfold sorted_set. by rewrite merge_sort_Permutation, elem_of_remove_dups.
Qed.

Lemma sorted_set_Sorted ts : Sorted DateTime.le (sorted_set ts).
Proof. apply (Sorted_merge_sort DateTime.le). Qed.

(** Listing the set in another order gives the same sorted list. *)
Lemma sorted_set_order_irrelevant ts l :
l ≡ₚ remove_dups ts → merge_sort DateTime.le l = sorted_set ts.
Proof.
intros Hl. apply (Sorted_unique DateTime.le).
- apply (Sorted_merge_sort DateTime.le).
- apply sorted_set_Sorted.
- unfold sorted_set. by rewrite !merge_sort_Permutation.
Qed.

(** ** Comprehensions that may raise *)

Section comprehension.
Context {A B : Type} (f : A → result B).

Lemma mapM_cons x l :
  mapM f (x :: l) =
  match f x with
  | Ok y => match mapM f l with Ok ys => Ok (y :: ys) | Raise e => Raise e end
  | Raise e => Raise e
  end.
Proof. reflexivity. Qed.

Lemma mapM_Ok l ys :
  mapM f l = Ok ys ↔ Forall2 (λ x y, f x = Ok y) l ys.
Proof.
  revert ys. induction l as [|x l IH]; intros ys.
  - split; [intros [= <-]; constructor|by inversion 1].
  - rewrite mapM_cons. split.
    + destruct (f x) as [y|e] eqn:Hx; [|done].
      destruct (mapM f l) as [ys'|e] eqn:Hl; [|done].
      intros [= <-]. constructor; [done|]. by apply IH.
    + inversion 1 as [|? y ? ys' Hx Hl]; subst. rewrite Hx.
      apply IH in Hl. by rewrite Hl.
Qed.

Lemma mapM_Raise l e :
  mapM f l = Raise e → ∃ x, x ∈ l ∧ f x = Raise e.
Proof.
  induction l as [|x l IH]; [done|]. rewrite mapM_cons.
  destruct (f x) as [y|e'] eqn:Hx.
  - destruct (mapM f l) as [ys|e'] eqn:Hl; [done|]. intros [= ->].
    destruct IH as (x' & ? & ?); [done|]. exists x'. split; [by right|done].
  - intros [= ->]. exists x. split; [by left|done].
Qed.

Lemma mapM_is_ok l :
  is_ok (mapM f l) = true ↔ ∀ x, x ∈ l → is_ok (f x) = true.
Proof.
  induction l as [|x l IH]; [split; [by inversion 2|done]|].
  rewrite mapM_cons. split.
  - destruct (f x) as [y|e] eqn:Hx; [|done].
    destruct (mapM f l) as [ys|e] eqn:Hl; [|done].
    intros _ x' [->|Hx']%elem_of_cons; [by rewrite Hx|]. by apply IH.
  - intros Hall. destruct (f x) as [y|e] eqn:Hx.
    + destruct (mapM f l) as [ys|e] eqn:Hl; [done|].
      apply IH. intros x' Hx'. apply Hall. by right.
    + specialize (Hall x). rewrite Hx in Hall. apply Hall. by left.
Qed.

Lemma mapM_elem_of l ys y :
  mapM f l = Ok ys → (y ∈ ys ↔ ∃ x, x ∈ l ∧ f x = Ok y).
Proof.
  rewrite mapM_Ok. induction 1 as [|x y' l ys Hx Hl IH].
  - split; [by intros ?%elem_of_nil|by intros (? & ?%elem_of_nil & _)].
  - rewrite elem_of_cons, IH. split.
    + intros [->|(x' & ? & ?)]; [exists x|exists x']; split; try done;
        [by left|by right].
    + intros (x' & [->|?]%elem_of_cons & Hy).
      * left. congruence.
      * right. eauto.
Qed.
End comprehension.


(** ** One fetch *)

(** What parsing a record does, by what the record is and what its
    [startTimestamp] holds. *)
Lemma parse_timeslot_datetime_cases (record : value) :
  match record with
  | VDict fields =>
      match fields !! "startTimestamp" with
      | None =>
          parse_timeslot_datetime record
            = Raise (KeyError (VStr "startTimestamp"))
      | Some (VStr stamp) =>
          parse_timeslot_datetime record = strptime stamp "%Y-%m-%dT%H:%M"
      | Some v =>
          parse_timeslot_datetime record
            = Raise (TypeError (StrptimeArgument (type_name v)))
      end
  | _ =>
      parse_timeslot_datetime record
        = Raise (TypeError (NoStringIndex (type_name record)))
  end.
Proof.
  unfold parse_timeslot_datetime, subscript.
  destruct record as [| | | | |fields]; try done.
  by destruct (fields !! "startTimestamp") as [[]|].
Qed.

Lemma strptime_raises_ValueError data format e :
  strptime data format = Raise e → ∃ why, e = ValueError why.
Proof.
  unfold strptime.
  destruct (re_match _ _ _) as [[d [|c rest]]|]; [|intros [= <-]; eauto..].
  destruct (valid d); [done|]. intros [= <-]. eauto.
Qed.

(** A request is made once; what comes of it is read off the reply. *)
Lemma make_request_run url w :
  make_request url w
    = (answer (remote w (requests_made w) url), requested url w).
Proof.
  unfold make_request, requests_get, requested, answer, json.
  unfold mbind, M_bind, result_bind, mret, M_ret, raise, lift. simpl.
  destruct (remote w (requests_made w) url) as [resp|]; [|done].
  case_bool_decide; by destruct (body resp).
Qed.

(** A fetch is one request; its outcome is read off the reply. *)
Lemma get_timeslots_for_location_id_run location_id limit w :
  get_timeslots_for_location_id location_id limit w =
  (doc ← answer (remote w (requests_made w) (TIMESLOT_URL limit location_id));
   records ← iterate doc;
   timeslots ← mapM parse_timeslot_datetime records;
   Ok (sorted_set timeslots),
   requested (TIMESLOT_URL limit location_id) w).
Proof.
  unfold get_timeslots_for_location_id.
  unfold mbind at 1, M_bind at 1. rewrite make_request_run.
  destruct (answer _) as [doc|e]; [|done].
  unfold mbind at 1, M_bind at 1, lift. simpl.
  destruct (iterate doc) as [records|e]; [|done]. simpl.
  by destruct (mapM parse_timeslot_datetime records).
Qed.

Lemma answer_success resp doc :
  status_code resp = 200 → json resp = Ok doc → answer (Some resp) = Ok doc.
Proof.
  intros Hs Hj. unfold answer. rewrite Hj. simpl.
  by rewrite bool_decide_false by (intros ?; done).
Qed.

Lemma delay_run w :
  delay w =
  (Ok (jitter (next_draw w)),
   mk_world (remote w) (entropy w) (requests_made w) (S (draws_made w))
     (trace w)).
Proof. reflexivity. Qed.

Lemma sleep_delay_run w : (pause ← delay; sleep pause) w = (Ok tt, slept w).
Proof. reflexivity. Qed.

Lemma next_draw_range w : -10 ≤ next_draw w ≤ 10.
Proof.
  unfold next_draw.
  pose proof (Z.mod_pos_bound (entropy w (draws_made w)) (10 - -10 + 1)). lia.
Qed.

Lemma jitter_range r :
  -10 ≤ r ≤ 10 →
  PrimFloat.leb 1 (jitter r) = true ∧ PrimFloat.leb (jitter r) 3 = true.
Proof.
  intros Hr.
  assert (Hcases : Exists (λ k, r = k) (seqZ (-10) 21)).
  { apply Exists_exists. exists r. split; [|done]. apply elem_of_seqZ. lia. }
  vm_compute seqZ in Hcases.
  repeat (apply Exists_cons in Hcases as [->|Hcases]; [by vm_compute|]).
  by apply Exists_nil in Hcases.
Qed.

(** C5.  Whatever [random.randint(-10, 10)] draws, the delay computed from it
    with [REQUEST_DELAY = 2] lies in the closed interval from 1 to 3; and
    [delay] always returns such a value, computed from a draw of that range. *)
Theorem C5_delay_between_1_and_3 (w : world) (r : Z) :
  -10 ≤ r ≤ 10 →
  PrimFloat.leb 1 (jitter r) = true ∧ PrimFloat.leb (jitter r) 3 = true ∧
  ∃ r' w', -10 ≤ r' ≤ 10 ∧ delay w = (Ok (jitter r'), w') ∧
    PrimFloat.leb 1 (jitter r') = true ∧ PrimFloat.leb (jitter r') 3 = true.
Proof.
  intros Hr. destruct (jitter_range r Hr) as [Hlo Hhi].
  split; [done|]. split; [done|].
  eexists (next_draw w), _. split; [apply next_draw_range|].
  split; [apply delay_run|]. apply jitter_range, next_draw_range.
Qed.

(** C4.  When the endpoint answers with success and every record parses, the
    fetch returns a list without duplicates, in ascending order (each element
    is at most its successor), that holds exactly the parsed timestamps: a
    timestamp carried by one record or by several sits at exactly one
    position. *)
Theorem C4_fetch_is_deduplicated_and_sorted
    location_id limit w resp doc records :
  remote w (requests_made w) (TIMESLOT_URL limit location_id) = Some resp →
  status_code resp = 200 →
  json resp = Ok doc →
  iterate doc = Ok records →
  (∀ record, record ∈ records → is_ok (parse_timeslot_datetime record) = true) →
  ∃ ts,
    get_timeslots_for_location_id location_id limit w
      = (Ok ts, requested (TIMESLOT_URL limit location_id) w) ∧
    NoDup ts ∧
    (∀ i a b, ts !! i = Some a → ts !! S i = Some b → DateTime.le a b) ∧
    (∀ t, t ∈ ts ↔ ∃ record, record ∈ records ∧ parse_timeslot_datetime record = Ok t) ∧
    (∀ record t, record ∈ records → parse_timeslot_datetime record = Ok t →
       ∃ i, ts !! i = Some t ∧ ∀ j, ts !! j = Some t → j = i).
Proof.
  intros Hremote Hstatus Hjson Hit Hparse.
  apply mapM_is_ok in Hparse.
  destruct (mapM parse_timeslot_datetime records) as [parsed|] eqn:Hparsed;
    [clear Hparse|done].
  exists (sorted_set parsed).
  assert (Hmem : ∀ t, t ∈ sorted_set parsed ↔
            ∃ record, record ∈ records ∧ parse_timeslot_datetime record = Ok t).
  { intros t. rewrite sorted_set_elem_of. by apply mapM_elem_of. }
  split; [|split; [|split; [|split]]].
  - rewrite get_timeslots_for_location_id_run, Hremote.
    rewrite (answer_success _ _ Hstatus Hjson). simpl. rewrite Hit. simpl.
    by rewrite Hparsed.
  - apply sorted_set_NoDup.
  - apply Sorted_adjacent, sorted_set_Sorted.
  - done.
  - intros record t Hin Ht.
    assert (Ht' : t ∈ sorted_set parsed) by (apply Hmem; eauto).
    apply list_elem_of_lookup in Ht' as [i Hi]. exists i. split; [done|].
    intros j Hj. by eapply NoDup_lookup; [apply sorted_set_NoDup| |].
Qed.

Lemma answer_raises reply :
  is_ok (answer reply) = false ↔
  reply = None ∨
  ∃ resp, reply = Some resp ∧ (status_code resp ≠ 200 ∨ body resp = None).
Proof.
  unfold answer, json. destruct reply as [resp|]; [|split; [by left|done]].
  destruct (body resp) as [doc|] eqn:Hbody; simpl.
  - case_bool_decide as Hs; simpl.
    + split; [|done]. intros _. right. exists resp. split; [done|by left].
    + split; [done|]. intros [?|(r & [= <-] & [?|?])]; [done|done|congruence].
  - split; [|done]. intros _. right. exists resp. split; [done|by right].
Qed.

Lemma iterate_raises doc :
  is_ok (iterate doc) = false ↔
  doc = VNone ∨ (∃ b, doc = VBool b) ∨ (∃ n, doc = VInt n).
Proof.
  destruct doc; simpl; split; try done; eauto.
  all: intros [?|[[? ?]|[? ?]]]; done.
Qed.

(** C8, as the program has it.  The fetch raises exactly when no response
    comes back, or the status is not 200, or the body is not JSON, or the
    decoded body cannot be iterated (it is [None], a Boolean or a number), or
    one of the things it iterates over does not parse.  On a status other
    than 200 with a body that is JSON the error is the [ValueError] with the
    status and the decoded body.  On a status 200 with a JSON array for a body
    an error is the one that parsing a record raised, handed on unchanged.  A
    record that is an object whose [startTimestamp] is a string parses as
    [strptime] reads that string in the format ["%Y-%m-%dT%H:%M"], and fails
    with the [ValueError] of [strptime] when it does not.  In every case
    exactly one request was made: nothing is retried. *)
Theorem C8_fetch_raises_iff location_id limit w :
  (is_ok (get_timeslots_for_location_id location_id limit w).1 = false ↔
     remote w (requests_made w) (TIMESLOT_URL limit location_id) = None ∨
     ∃ resp,
       remote w (requests_made w) (TIMESLOT_URL limit location_id)
         = Some resp ∧
       (status_code resp ≠ 200 ∨ body resp = None ∨
        ∃ doc, body resp = Some doc ∧
          (doc = VNone ∨ (∃ b, doc = VBool b) ∨ (∃ n, doc = VInt n) ∨
           ∃ records record,
             iterate doc = Ok records ∧ record ∈ records ∧
             is_ok (parse_timeslot_datetime record) = false))) ∧
  (∀ resp doc,
     remote w (requests_made w) (TIMESLOT_URL limit location_id) = Some resp →
     status_code resp ≠ 200 → body resp = Some doc →
     (get_timeslots_for_location_id location_id limit w).1
       = Raise (ValueError (NonSuccess (status_code resp) doc))) ∧
  (∀ resp records e,
     remote w (requests_made w) (TIMESLOT_URL limit location_id) = Some resp →
     status_code resp = 200 → body resp = Some (VList records) →
     (get_timeslots_for_location_id location_id limit w).1 = Raise e →
     ∃ record, record ∈ records ∧ parse_timeslot_datetime record = Raise e) ∧
  (∀ fields stamp,
     fields !! "startTimestamp" = Some (VStr stamp) →
     parse_timeslot_datetime (VDict fields)
       = strptime stamp "%Y-%m-%dT%H:%M" ∧
     ∀ e, parse_timeslot_datetime (VDict fields) = Raise e →
          ∃ why, e = ValueError why) ∧
  (get_timeslots_for_location_id location_id limit w).2
    = requested (TIMESLOT_URL limit location_id) w.
Proof.
  rewrite get_timeslots_for_location_id_run. simpl.
  set (reply := remote w (requests_made w) (TIMESLOT_URL limit location_id)).
  split; [|split; [|split; [|split]]]; [| | | |done].
  - destruct (answer reply) as [doc|e] eqn:Hanswer; simpl.
    + assert (Hok : is_ok (answer reply) = true) by by rewrite Hanswer.
      destruct reply as [resp|]; [|done]. unfold answer, json in Hanswer.
      destruct (body resp) as [doc'|] eqn:Hbody; [|done]. simpl in Hanswer.
      case_bool_decide as Hs; [done|]. injection Hanswer as ->.
      assert (Hstatus : status_code resp = 200)
        by (destruct (decide (status_code resp = 200)); done).
      destruct (iterate doc) as [records|e] eqn:Hit; simpl.
      * destruct (mapM parse_timeslot_datetime records) as [ts|e] eqn:Hp;
          simpl.
        -- split; [done|].
           intros [?|(r & [= <-] & [?|[?|(d & Hd & Hbad)]])];
             [done|done|congruence|].
           rewrite Hbody in Hd. injection Hd as <-.
           destruct Hbad as [->|[[b ->]|[[n ->]|(rs & record & Hrs & Hin & Hr)]]];
             try done.
           rewrite Hit in Hrs. injection Hrs as <-.
           assert (Hall : is_ok (mapM parse_timeslot_datetime records) = true)
             by by rewrite Hp.
           rewrite mapM_is_ok in Hall. by rewrite (Hall record Hin) in Hr.
        -- split; [|done]. intros _. right. exists resp. split; [done|].
           right. right. exists doc. split; [done|].
           apply mapM_Raise in Hp as (record & Hin & Hr).
           right. right. right. exists records, record.
           split; [done|]. split; [done|]. by rewrite Hr.
      * split; [|done]. intros _. right. exists resp. split; [done|].
        right. right. exists doc. split; [done|].
        assert (Hbad : is_ok (iterate doc) = false) by by rewrite Hit.
        apply iterate_raises in Hbad as [?|[?|?]]; auto.
    + split; [|done]. intros _.
      assert (Hbad : is_ok (answer reply) = false) by by rewrite Hanswer.
      apply answer_raises in Hbad as [?|(resp & ? & [?|?])]; [by left|..];
        right; exists resp; auto.
  - intros resp doc -> Hs Hbody. unfold answer, json. rewrite Hbody. simpl.
    by rewrite bool_decide_true.
  - intros resp records e -> Hs Hbody.
    rewrite (answer_success _ (VList records) Hs)
      by (unfold json; by rewrite Hbody).
    simpl. destruct (mapM parse_timeslot_datetime records) as [ts|e'] eqn:Hp;
      [done|].
    intros [= ->]. by apply mapM_Raise.
  - intros fields stamp Hstamp.
    pose proof (parse_timeslot_datetime_cases (VDict fields)) as Hcases.
    simpl in Hcases. rewrite Hstamp in Hcases. split; [done|]. rewrite Hcases.
    apply strptime_raises_ValueError.
Qed.

(** ** The notification text *)

Lemma for_items_cons location_mapping location_id timeslots rest texts :
  for_items location_mapping ((location_id, timeslots) :: rest) texts =
  if bool_decide (0 < length timeslots)%nat then
    match location_text location_mapping location_id timeslots with
    | Ok text => for_items location_mapping rest (texts ++ [text])
    | Raise e => Raise e
    end
  else for_items location_mapping rest texts.
Proof. reflexivity. Qed.

Lemma length_pos_ne_nil {A} (l : list A) : (0 < length l)%nat ↔ l ≠ [].
Proof. destruct l; simpl; split; (done || lia). Qed.

Lemma location_text_raises location_mapping location_id timeslots e :
  location_text location_mapping location_id timeslots = Raise e ↔
  location_mapping !! location_id = None ∧ e = KeyError (VInt location_id).
Proof.
  unfold location_text, label_of.
  destruct (location_mapping !! location_id); simpl.
  - split; [done|by intros [? _]].
  - split; [by intros [= <-]|by intros [_ ->]].
Qed.

(** Locations without timeslots leave the texts as they are. *)
Lemma for_items_all_empty location_mapping all_timeslots texts :
  (∀ location_id timeslots,
     (location_id, timeslots) ∈ all_timeslots → timeslots = []) →
  for_items location_mapping all_timeslots texts = Ok texts.
Proof.
  induction all_timeslots as [|[location_id timeslots] rest IH]; intros Hall;
    [done|].
  rewrite for_items_cons, (Hall location_id timeslots) by by left.
  simpl. apply IH. intros ???. eapply Hall. by right.
Qed.

Lemma for_items_raises location_mapping all_timeslots texts e :
  for_items location_mapping all_timeslots texts = Raise e →
  ∃ location_id timeslots,
    (location_id, timeslots) ∈ all_timeslots ∧ timeslots ≠ [] ∧
    location_mapping !! location_id = None ∧ e = KeyError (VInt location_id).
Proof.
  revert texts.
  induction all_timeslots as [|[location_id timeslots] rest IH]; intros texts;
    [done|].
  rewrite for_items_cons. case_bool_decide as Hlen.
  - destruct (location_text _ _ _) as [text|e'] eqn:Htext.
    + intros (i & ts & ? & ?)%IH. exists i, ts. split; [by right|done].
    + intros [= ->]. apply location_text_raises in Htext as [? ?].
      exists location_id, timeslots. rewrite <- length_pos_ne_nil.
      split; [by left|done].
  - intros (i & ts & ? & ?)%IH. exists i, ts. split; [by right|done].
Qed.

Lemma for_items_missing location_mapping all_timeslots texts :
  (∃ location_id timeslots,
     (location_id, timeslots) ∈ all_timeslots ∧ timeslots ≠ [] ∧
     location_mapping !! location_id = None) →
  is_ok (for_items location_mapping all_timeslots texts) = false.
Proof.
  revert texts.
  induction all_timeslots as [|[location_id timeslots] rest IH];
    intros texts (i & ts & Hin & Hne & Hmiss); [by apply elem_of_nil in Hin|].
  rewrite for_items_cons. apply elem_of_cons in Hin as [[= <- <-]|Hin].
  - rewrite bool_decide_true by by apply length_pos_ne_nil.
    unfold location_text, label_of. by rewrite Hmiss.
  - case_bool_decide; [destruct (location_text _ _ _); [|done]|];
      apply IH; eauto.
Qed.

Lemma for_items_agree m1 m2 all_timeslots texts :
  (∀ location_id timeslots,
     (location_id, timeslots) ∈ all_timeslots → timeslots ≠ [] →
     m1 !! location_id = m2 !! location_id) →
  for_items m1 all_timeslots texts = for_items m2 all_timeslots texts.
Proof.
  revert texts.
  induction all_timeslots as [|[location_id timeslots] rest IH];
    intros texts Hagree; [done|].
  assert (Hrest : ∀ texts', for_items m1 rest texts' = for_items m2 rest texts').
  { intros texts'. apply IH. intros ????. eapply Hagree; [by right|done]. }
  rewrite !for_items_cons. case_bool_decide as Hlen; [|done].
  unfold location_text, label_of.
  rewrite (Hagree location_id timeslots) by
    (by left || by apply length_pos_ne_nil).
  destruct (m2 !! location_id); simpl; [done|done].
Qed.

Lemma generate_notification_texts_raises location_mapping all_timeslots silent e :
  generate_notification_texts location_mapping all_timeslots silent = Raise e →
  for_items location_mapping all_timeslots [banner] = Raise e.
Proof.
  unfold generate_notification_texts.
  destruct (for_items _ _ _) as [texts|e']; simpl; [|done].
  case_bool_decide; [destruct silent|]; done.
Qed.

(** C2, as the program has it.  When every location's list is empty, the
    formatter returns no text at all if [silent] is set (not even the banner),
    and the banner followed by one explanatory line if it is not. *)
Theorem C2_all_empty_texts location_mapping all_timeslots :
  (∀ location_id timeslots,
     (location_id, timeslots) ∈ all_timeslots → timeslots = []) →
  generate_notification_texts location_mapping all_timeslots true = Ok [] ∧
  generate_notification_texts location_mapping all_timeslots false
    = Ok [banner; "No open timeslots found!"].
Proof.
  intros Hall. unfold generate_notification_texts.
  by rewrite for_items_all_empty.
Qed.

(** C9.  The formatter raises exactly when some location with timeslots has no
    entry in the mapping, and what it raises is the key error of such a
    location.  The mapping's entries for locations without timeslots are never
    read: two mappings that agree on the locations with timeslots give the
    same outcome, so the formatter cannot fail for a missing entry of a
    location without timeslots. *)
Theorem C9_formatter_key_errors location_mapping all_timeslots silent :
  (is_ok (generate_notification_texts location_mapping all_timeslots silent)
     = false ↔
   ∃ location_id timeslots,
     (location_id, timeslots) ∈ all_timeslots ∧ timeslots ≠ [] ∧
     location_mapping !! location_id = None) ∧
  (∀ e,
     generate_notification_texts location_mapping all_timeslots silent
       = Raise e →
     ∃ location_id timeslots,
       (location_id, timeslots) ∈ all_timeslots ∧ timeslots ≠ [] ∧
       location_mapping !! location_id = None ∧
       e = KeyError (VInt location_id)) ∧
  (∀ other_mapping,
     (∀ location_id timeslots,
        (location_id, timeslots) ∈ all_timeslots → timeslots ≠ [] →
        other_mapping !! location_id = location_mapping !! location_id) →
     generate_notification_texts other_mapping all_timeslots silent
       = generate_notification_texts location_mapping all_timeslots silent).
Proof.
  split; [|split].
  - split.
    + destruct (generate_notification_texts _ _ _) as [|e] eqn:Hg; [done|].
      intros _. apply generate_notification_texts_raises, for_items_raises in Hg as (i & ts & ? & ? & ? & _).
      eauto.
    + intros Hmiss. unfold generate_notification_texts.
      pose proof (for_items_missing _ _ [banner] Hmiss) as Hbad.
      by destruct (for_items _ _ _).
  - intros e He. by apply generate_notification_texts_raises, for_items_raises in He.
  - intros other Hagree. unfold generate_notification_texts.
    by rewrite (for_items_agree other location_mapping).
Qed.

(** ** Parsing a cutoff date *)

Lemma first_some_Some {A B} (f : A → option B) (l : list A) (b : B) :
  first_some f l = Some b → ∃ a, a ∈ l ∧ f a = Some b.
Proof.
  induction l as [|a l IH]; simpl; [done|].
  destruct (f a) as [b'|] eqn:Ha.
  - intros [= ->]. exists a. split; [by left|done].
  - intros (a' & ? & ?)%IH. exists a'. split; [by right|done].
Qed.

Lemma alternatives_keep_time c d s d' s' :
  (d', s') ∈ alternatives c d s → c ≠ "H"%char → c ≠ "M"%char →
  hour d' = hour d ∧ minute d' = minute d.
Proof.
  unfold alternatives. intros Hin HH HM.
  repeat case_bool_decide; try done;
    try (apply list_elem_of_fmap in Hin as ([v r] & [= -> ->] & _); done).
  by apply elem_of_nil in Hin.
Qed.

Lemma literal_keep c d s d' s' : (d', s') ∈ literal c d s → d' = d.
Proof.
  unfold literal. destruct s as [|a r]; [by intros ?%elem_of_nil|].
  case_bool_decide; [|by intros ?%elem_of_nil].
  by intros [= -> ->]%list_elem_of_singleton.
Qed.

Lemma re_match_keep_time its :
  Forall (λ it, it ≠ Dir "H" ∧ it ≠ Dir "M") its →
  ∀ d s d' s', re_match its d s = Some (d', s') →
  hour d' = hour d ∧ minute d' = minute d.
Proof.
  induction 1 as [|it its [HH HM] _ IH]; intros d s d' s'; simpl.
  - by intros [= -> ->].
  - intros ([d1 s1] & Hin & Hrest)%first_some_Some.
    apply IH in Hrest as [-> ->]. destruct it as [c|c].
    + by apply literal_keep in Hin as ->.
    + eapply alternatives_keep_time; [done| |]; congruence.
Qed.

(** A cutoff parsed from a date alone is that date at 00:00. *)
Lemma strptime_date_midnight b cutoff :
  strptime b "%Y-%m-%d" = Ok cutoff → hour cutoff = 0 ∧ minute cutoff = 0.
Proof.
  unfold strptime.
  destruct (re_match _ _ _) as [[d rest]|] eqn:Hm; [|done].
  apply re_match_keep_time in Hm; [|by repeat constructor].
  destruct rest; [|done]. destruct (valid d); [|done]. by intros [= <-].
Qed.

Lemma keep_before_None timeslots : keep_before None timeslots = Ok timeslots.
Proof.
  induction timeslots as [|t ts IH]; [done|]. simpl. by rewrite IH.
Qed.

Lemma keep_before_Some b cutoff timeslots :
  strptime b "%Y-%m-%d" = Ok cutoff →
  keep_before (Some b) timeslots
    = Ok (filter (λ t, DateTime.lt t cutoff) timeslots).
Proof.
  intros Hb. induction timeslots as [|t ts IH]; [done|].
  simpl. rewrite Hb, IH. simpl. rewrite filter_cons.
  destruct (DateTime.ltb t cutoff) eqn:Hlt.
  - apply ltb_lt in Hlt. by rewrite decide_True.
  - rewrite decide_False; [done|]. rewrite <- ltb_lt. congruence.
Qed.

(** ** The insertion-ordered dictionary *)

Lemma getitem_opt_setitem {V} k (v : V) d :
  getitem_opt k (setitem k v d) = Some v.
Proof.
  induction d as [|[k' v'] d IH]; simpl; [by rewrite decide_True|].
  destruct (decide (k' = k)) as [->|Hne]; simpl.
  - by rewrite decide_True.
  - by rewrite decide_False.
Qed.

Lemma getitem_opt_setitem_ne {V} k k' (v : V) d :
  k ≠ k' → getitem_opt k' (setitem k v d) = getitem_opt k' d.
Proof.
  intros Hne. induction d as [|[k0 v0] d IH]; simpl.
  - by rewrite decide_False.
  - destruct (decide (k0 = k)) as [->|?]; simpl.
    + by rewrite !decide_False.
    + by rewrite IH.
Qed.

Lemma setitem_keys {V} k (v : V) d :
  (setitem k v d).*1 = if decide (k ∈ d.*1) then d.*1 else d.*1 ++ [k].
Proof.
  induction d as [|[k' v'] d IH].
  - rewrite decide_False; [done|]. by intros ?%elem_of_nil.
  - cbn [setitem]. rewrite fmap_cons. cbn [fst].
    destruct (decide (k' = k)) as [->|Hne].
    + rewrite decide_True; [done|]. by left.
    + rewrite fmap_cons, IH. cbn [fst].
      destruct (decide (k ∈ d.*1)) as [Hin|Hnin].
      * rewrite decide_True; [done|]. by right.
      * rewrite decide_False; [done|].
        intros [?|?]%elem_of_cons; [congruence|done].
Qed.

Lemma setitem_keys_NoDup {V} k (v : V) d :
  NoDup d.*1 → NoDup (setitem k v d).*1.
Proof.
  intros Hd. rewrite setitem_keys. case_decide; [done|].
  apply NoDup_app. split; [done|]. split; [|apply NoDup_singleton].
  intros x Hx ->%list_elem_of_singleton. done.
Qed.

Lemma setitem_keys_elem_of {V} k (v : V) d x :
  x ∈ (setitem k v d).*1 ↔ x = k ∨ x ∈ d.*1.
Proof.
  rewrite setitem_keys. case_decide as Hin.
  - split; [by right|]. by intros [->|?].
  - rewrite elem_of_app, list_elem_of_singleton. tauto.
Qed.

Lemma elem_of_getitem_opt {V} k (v : V) d :
  NoDup d.*1 → (k, v) ∈ d → getitem_opt k d = Some v.
Proof.
  induction d as [|[k' v'] d IH]; simpl; [by intros _ ?%elem_of_nil|].
  intros [Hk' Hd]%NoDup_cons [[= <- <-]|Hin]%elem_of_cons.
  - by rewrite decide_True.
  - rewrite decide_False; [by apply IH|].
    intros ->. apply Hk'. apply list_elem_of_fmap. by exists (k, v).
Qed.

(** ** One round over the locations *)

Lemma for_location_ids_cons before limit location_id rest acc w :
  for_location_ids before limit (location_id :: rest) acc w =
  match get_timeslots_for_location_id location_id limit w with
  | (Ok fetched, w1) =>
      match keep_before before fetched with
      | Ok timeslots =>
          for_location_ids before limit rest
            (setitem location_id timeslots acc) (slept w1)
      | Raise e => (Raise e, w1)
      end
  | (Raise e, w1) => (Raise e, w1)
  end.
Proof.
  simpl. unfold mbind at 1, M_bind at 1.
  destruct (get_timeslots_for_location_id _ _ _) as [[fetched|e] w1]; [|done].
  unfold mbind at 1, M_bind at 1, lift at 1.
  destruct (keep_before _ _) as [timeslots|e]; [|done].
  reflexivity.
Qed.

Lemma for_location_ids_app before limit pre post acc w :
  for_location_ids before limit (pre ++ post) acc w =
  match for_location_ids before limit pre acc w with
  | (Ok acc1, w1) => for_location_ids before limit post acc1 w1
  | (Raise e, w1) => (Raise e, w1)
  end.
Proof.
  revert acc w. induction pre as [|location_id pre IH]; intros acc w; [done|].
  rewrite <- app_comm_cons, !for_location_ids_cons.
  destruct (get_timeslots_for_location_id _ _ _) as [[fetched|e] w1]; [|done].
  destruct (keep_before _ _) as [timeslots|e]; [|done].
  apply IH.
Qed.

Lemma fetch_world location_id limit w :
  (get_timeslots_for_location_id location_id limit w).2
    = requested (TIMESLOT_URL limit location_id) w.
Proof. by rewrite get_timeslots_for_location_id_run. Qed.

Lemma round_events_cons limit location_id rest pause pauses :
  round_events limit (location_id :: rest) (pause :: pauses)
    = Get (TIMESLOT_URL limit location_id) :: Sleep pause
        :: round_events limit rest pauses.
Proof. reflexivity. Qed.

(** What a round does to the world, whether it completes or raises. *)
Lemma for_location_ids_effects before limit location_ids acc w :
  ∃ pauses, Forall jittered pauses ∧
    match for_location_ids before limit location_ids acc w with
    | (Ok _, w') =>
        length pauses = length location_ids ∧
        trace w' = trace w ++ round_events limit location_ids pauses ∧
        requests_made w' = (requests_made w + length location_ids)%nat ∧
        remote w' = remote w ∧ entropy w' = entropy w
    | (Raise _, w') =>
        ∃ done location_id rest,
          location_ids = done ++ location_id :: rest ∧
          length pauses = length done ∧
          trace w' = trace w ++ round_events limit done pauses
                       ++ [Get (TIMESLOT_URL limit location_id)] ∧
          requests_made w' = S (requests_made w + length done)
    end.
Proof.
  revert acc w. induction location_ids as [|location_id rest IH]; intros acc w.
  { exists []. split; [done|]. simpl. rewrite app_nil_r.
    repeat split; (done || lia). }
  rewrite for_location_ids_cons.
  pose proof (fetch_world location_id limit w) as Hw1.
  destruct (get_timeslots_for_location_id _ _ _) as [[fetched|e] w1];
    simpl in Hw1; subst w1.
  2:{ exists []. split; [done|]. exists [], location_id, rest.
      repeat split; simpl; (done || lia). }
  destruct (keep_before _ _) as [timeslots|e].
  2:{ exists []. split; [done|]. exists [], location_id, rest.
      repeat split; simpl; (done || lia). }
  set (w1 := requested (TIMESLOT_URL limit location_id) w).
  destruct (IH (setitem location_id timeslots acc) (slept w1))
    as (pauses & Hj & Hrun).
  exists (jitter (next_draw w1) :: pauses). split.
  { constructor; [|done]. exists (next_draw w1).
    split; [apply next_draw_range|done]. }
  destruct (for_location_ids _ _ _ _ _) as [[res|e] w'].
  - destruct Hrun as (Hlen & Htr & Hreq & Hrem & Hent).
    rewrite round_events_cons, Htr, Hreq, Hrem, Hent. simpl.
    rewrite <- !app_assoc. simpl. repeat split; (done || lia).
  - destruct Hrun as (done_ & failing & rest' & -> & Hlen & Htr & Hreq).
    exists (location_id :: done_), failing, rest'.
    rewrite round_events_cons, Htr, Hreq. simpl.
    rewrite <- !app_assoc. simpl. repeat split; (done || lia).
Qed.

(** The keys of a completed round: those it started from and the locations
    it visited, each once. *)
Lemma for_location_ids_keys before limit location_ids acc w res w' :
  for_location_ids before limit location_ids acc w = (Ok res, w') →
  (NoDup acc.*1 → NoDup res.*1) ∧
  (∀ k, k ∈ res.*1 ↔ k ∈ acc.*1 ∨ k ∈ location_ids).
Proof.
  revert acc w. induction location_ids as [|location_id rest IH]; intros acc w.
  { intros [= -> ->]. split; [done|]. intros k. rewrite elem_of_nil. tauto. }
  rewrite for_location_ids_cons.
  destruct (get_timeslots_for_location_id _ _ _) as [[fetched|e] w1]; [|done].
  destruct (keep_before _ _) as [timeslots|e]; [|done].
  intros [Hnd Hkeys]%IH. split.
  - intros Hacc. by apply Hnd, setitem_keys_NoDup.
  - intros k. rewrite Hkeys, setitem_keys_elem_of, elem_of_cons. tauto.
Qed.

(** A location that the rest of the round does not visit keeps its entry. *)
Lemma for_location_ids_untouched before limit location_ids acc w res w' k :
  for_location_ids before limit location_ids acc w = (Ok res, w') →
  k ∉ location_ids → getitem_opt k res = getitem_opt k acc.
Proof.
  revert acc w. induction location_ids as [|location_id rest IH]; intros acc w.
  { by intros [= -> ->]. }
  rewrite for_location_ids_cons.
  destruct (get_timeslots_for_location_id _ _ _) as [[fetched|e] w1]; [|done].
  destruct (keep_before _ _) as [timeslots|e]; [|done].
  intros Hrun [Hne Hrest]%not_elem_of_cons.
  rewrite (IH _ _ Hrun Hrest). by apply getitem_opt_setitem_ne.
Qed.

(** The entry of a location is what its last fetch of the round gave, after
    the cutoff filter. *)
Lemma last_fetch_stored before limit pre location_id post acc w res w' :
  for_location_ids before limit (pre ++ location_id :: post) acc w
    = (Ok res, w') →
  location_id ∉ post →
  ∃ acc1 w1 fetched kept,
    for_location_ids before limit pre acc w = (Ok acc1, w1) ∧
    get_timeslots_for_location_id location_id limit w1
      = (Ok fetched, requested (TIMESLOT_URL limit location_id) w1) ∧
    keep_before before fetched = Ok kept ∧
    getitem_opt location_id res = Some kept.
Proof.
  rewrite for_location_ids_app.
  destruct (for_location_ids before limit pre acc w) as [[acc1|e] w1]; [|done].
  rewrite for_location_ids_cons.
  pose proof (fetch_world location_id limit w1) as Hw.
  destruct (get_timeslots_for_location_id _ _ _) as [[fetched|e] w2] eqn:Hfetch;
    [|done].
  simpl in Hw. subst w2.
  destruct (keep_before _ _) as [kept|e] eqn:Hkeep; [|done].
  intros Hrun Hpost. exists acc1, w1, fetched, kept.
  split; [done|]. split; [done|]. split; [done|].
  rewrite (for_location_ids_untouched _ _ _ _ _ _ _ _ Hrun Hpost).
  apply getitem_opt_setitem.
Qed.

(** C3.  In a completed round, the list returned for a location is what its
    (last) fetch gave, filtered by the cutoff: without a cutoff everything
    fetched is kept; with a cutoff that parses to a date, the cutoff is that
    date at 00:00, a fetched timeslot is kept exactly when it is strictly
    before it, and a timeslot equal to it is not in the list. *)
Theorem C3_cutoff_is_exclusive before limit pre location_id post w res w' :
  get_timeslots_for_location_ids (pre ++ location_id :: post) before limit w
    = (Ok res, w') →
  location_id ∉ post →
  ∃ acc w1 fetched kept,
    for_location_ids before limit pre [] w = (Ok acc, w1) ∧
    get_timeslots_for_location_id location_id limit w1
      = (Ok fetched, requested (TIMESLOT_URL limit location_id) w1) ∧
    getitem_opt location_id res = Some kept ∧
    (before = None → kept = fetched) ∧
    (∀ b cutoff,
       before = Some b → strptime b "%Y-%m-%d" = Ok cutoff →
       hour cutoff = 0 ∧ minute cutoff = 0 ∧
       (cutoff ∉ kept) ∧
       (∀ t, t ∈ kept ↔ t ∈ fetched ∧ DateTime.lt t cutoff)).
Proof.
  intros Hrun Hpost.
  destruct (last_fetch_stored _ _ _ _ _ _ _ _ _ Hrun Hpost)
    as (acc & w1 & fetched & kept & Hpre & Hfetch & Hkeep & Hres).
  exists acc, w1, fetched, kept.
  split; [done|]. split; [done|]. split; [done|]. split.
  - intros ->. rewrite keep_before_None in Hkeep. congruence.
  - intros b cutoff -> Hb. rewrite (keep_before_Some _ _ _ Hb) in Hkeep.
    injection Hkeep as <-.
    destruct (strptime_date_midnight _ _ Hb) as [Hh Hm].
    split; [done|]. split; [done|]. split.
    + rewrite list_elem_of_filter. intros [Hlt _]. by apply lt_irrefl in Hlt.
    + intros t. rewrite list_elem_of_filter. tauto.
Qed.

(** C7.  A round requests the locations in the order of the list it was
    given, and every location it gets through is followed by one sleep of a
    jittered length before anything else happens, the last location's
    included: a completed round leaves exactly request, sleep, request,
    sleep, ... in the trace.  A round that raises has done the same for the
    locations before the one at which it raised, and ends with that
    location's request. *)
Theorem C7_round_order_and_sleeps location_ids before limit w :
  ∃ pauses, Forall jittered pauses ∧
    match get_timeslots_for_location_ids location_ids before limit w with
    | (Ok _, w') =>
        length pauses = length location_ids ∧
        trace w' = trace w ++ round_events limit location_ids pauses
    | (Raise _, w') =>
        ∃ done location_id rest,
          location_ids = done ++ location_id :: rest ∧
          length pauses = length done ∧
          trace w' = trace w ++ round_events limit done pauses
                       ++ [Get (TIMESLOT_URL limit location_id)]
    end.
Proof.
  unfold get_timeslots_for_location_ids.
  destruct (for_location_ids_effects before limit location_ids [] w)
    as (pauses & Hj & Hrun).
  exists pauses. split; [done|].
  destruct (for_location_ids _ _ _ _ _) as [[res|e] w'].
  - by destruct Hrun as (? & ? & _).
  - destruct Hrun as (done_ & failing & rest & ? & ? & ? & _).
    by exists done_, failing, rest.
Qed.

(** C10.  A completed round over a list with repeated locations returns one
    entry per distinct location, holding what the last fetch for that
    location gave (after the cutoff filter), although it made one request and
    one sleep per element of the list. *)
Theorem C10_duplicate_location_ids location_ids before limit w res w' :
  get_timeslots_for_location_ids location_ids before limit w = (Ok res, w') →
  NoDup res.*1 ∧
  (∀ location_id, location_id ∈ res.*1 ↔ location_id ∈ location_ids) ∧
  length res = length (remove_dups location_ids) ∧
  requests_made w' = (requests_made w + length location_ids)%nat ∧
  (∃ pauses, length pauses = length location_ids ∧
     trace w' = trace w ++ round_events limit location_ids pauses) ∧
  (∀ pre location_id post,
     location_ids = pre ++ location_id :: post → location_id ∉ post →
     ∃ acc w1 fetched kept,
       for_location_ids before limit pre [] w = (Ok acc, w1) ∧
       get_timeslots_for_location_id location_id limit w1
         = (Ok fetched, requested (TIMESLOT_URL limit location_id) w1) ∧
       keep_before before fetched = Ok kept ∧
       getitem_opt location_id res = Some kept ∧
       ∀ timeslots, (location_id, timeslots) ∈ res → timeslots = kept).
Proof.
  unfold get_timeslots_for_location_ids. intros Hrun.
  destruct (for_location_ids_keys _ _ _ _ _ _ _ Hrun) as [Hnd Hkeys].
  specialize (Hnd (NoDup_nil_2 : NoDup ([] : list (Z * list datetime)).*1)).
  assert (Hmem : ∀ k, k ∈ res.*1 ↔ k ∈ location_ids).
  { intros k. rewrite Hkeys. simpl. rewrite elem_of_nil. tauto. }
  destruct (for_location_ids_effects before limit location_ids [] w)
    as (pauses & _ & Heff). rewrite Hrun in Heff.
  destruct Heff as (Hlen & Htr & Hreq & _).
  repeat split; try done.
  - apply Hmem.
  - apply Hmem.
  - rewrite <- (length_fmap fst res). apply Permutation_length.
    apply NoDup_Permutation; [done|apply NoDup_remove_dups|].
    intros k. by rewrite Hmem, elem_of_remove_dups.
  - by exists pauses.
  - intros pre location_id post -> Hpost.
    destruct (last_fetch_stored _ _ _ _ _ _ _ _ _ Hrun Hpost)
      as (acc & w1 & fetched & kept & ? & ? & ? & Hres).
    exists acc, w1, fetched, kept. repeat split; try done.
    intros timeslots Hin. apply elem_of_getitem_opt in Hin; [|done].
    congruence.
Qed.

(** ** The polling loop *)

Lemma any_values_false ats :
  any_values ats = false ↔
  ∀ location_id timeslots, (location_id, timeslots) ∈ ats → timeslots = [].
Proof.
  unfold any_values. induction ats as [|[k v] ats IH]; simpl.
  - split; [by intros _ ?? ?%elem_of_nil|done].
  - rewrite orb_false_iff, IH, bool_decide_eq_false. split.
    + intros [Hv Hrest] k' v' [[= -> ->]|Hin]%elem_of_cons.
      * destruct v; [done|]. by destruct Hv.
      * eauto.
    + intros Hall. split.
      * rewrite (Hall k v) by by left. by intros ?.
      * intros ???. eapply Hall. by right.
Qed.

Lemma any_values_true ats :
  any_values ats = true ↔
  ∃ location_id timeslots, (location_id, timeslots) ∈ ats ∧ timeslots ≠ [].
Proof.
  destruct (any_values ats) eqn:Hany.
  - split; [intros _|done].
    unfold any_values in Hany. apply existsb_exists in Hany as ([k v] & Hin & Hv).
    apply bool_decide_eq_true in Hv. exists k, v.
    split; [by apply list_elem_of_In|done].
  - split; [done|]. intros (k & v & Hin & Hv).
    rewrite any_values_false in Hany. by specialize (Hany k v Hin).
Qed.

Lemma poll_until_found_S rounds location_ids before limit w :
  poll_until_found (S rounds) location_ids before limit w =
  match get_timeslots_for_location_ids location_ids before limit w with
  | (Ok ats, w') =>
      if any_values ats then Some (Ok ats, w')
      else poll_until_found rounds location_ids before limit (slept w')
  | (Raise e, w') => Some (Raise e, w')
  end.
Proof.
  simpl. destruct (get_timeslots_for_location_ids _ _ _ _) as [[ats|e] w'];
    [|done].
  by destruct (any_values ats).
Qed.


(** C6.  The sample run: locations 5446 and 5020, a mapping that names 5446
    only, a first round that finds nothing and a second round that finds
    1 March 2024 09:00 at 5446.  The loop needs its second round, and the text
    is the banner and one block for 5446, its label line followed by the one
    indented timeslot line; there is no block for 5020. *)
Theorem C6_end_to_end_scenario (source : nat → Z) (silent : bool) (more : nat) :
  poll_until_found 1 [5446; 5020] None 10 (fresh scenario_remote source)
    = None ∧
  fst <$> poll_until_found (2 + more) [5446; 5020] None 10
            (fresh scenario_remote source)
    = Some (Ok [(5446, [mk_datetime 2024 3 1 9 0]); (5020, [])]) ∧
  fst <$> main (2 + more) scenario_mapping [5446; 5020] None 10 silent
            (fresh scenario_remote source)
    = Some (Ok [banner;
                "Location A (City, ST) (5446)" +:+ newline
                  +:+ "    March 1, 2024 (Fri) @ 9:00 AM"]).
Proof. split; [|split]; by vm_compute. Qed.

(** ** The properties at sample inputs *)


(** The claim of C2 about [silent] fails: with every list empty the formatter
    returns nothing, not the banner. *)
Lemma C2_silent_returns_nothing :
  (∀ location_id timeslots,
     (location_id, timeslots) ∈ [(5446, [] : list datetime); (5020, [])] →
     timeslots = []) ∧
  generate_notification_texts scenario_mapping [(5446, []); (5020, [])] true
    = Ok [] ∧
  generate_notification_texts scenario_mapping [(5446, []); (5020, [])] true
    ≠ Ok [banner].
Proof.
  split; [|split; [by vm_compute|by vm_compute]].
  intros location_id timeslots Hin.
  repeat (apply elem_of_cons in Hin as [[= _ ->]|Hin]; [done|]).
  by apply elem_of_nil in Hin.
Qed.

Lemma C2_all_empty_texts_witness :
  generate_notification_texts scenario_mapping [(5446, []); (5020, [])] true
    = Ok [] ∧
  generate_notification_texts scenario_mapping [(5446, []); (5020, [])] false
    = Ok [banner; "No open timeslots found!"].
Proof.
  apply (C2_all_empty_texts scenario_mapping [(5446, []); (5020, [])]).
  intros location_id timeslots Hin.
  repeat (apply elem_of_cons in Hin as [[= _ ->]|Hin]; [done|]).
  by apply elem_of_nil in Hin.
Defined.

(** C3 at a round over one location with the cutoff 1 March 2024: of the
    fetched 29 February 23:59, 1 March 00:00 and 5 March 09:00 only the first
    is returned. *)
Lemma C3_cutoff_is_exclusive_witness :
  (get_timeslots_for_location_ids [5446] (Some "2024-03-01") 10
     (fresh busy_remote (λ _, 0))).1
    = Ok [(5446, [mk_datetime 2024 2 29 23 59])] ∧
  ∃ fetched kept,
    fetched = [mk_datetime 2024 2 29 23 59; mk_datetime 2024 3 1 0 0;
               mk_datetime 2024 3 5 9 0] ∧
    kept = [mk_datetime 2024 2 29 23 59] ∧
    (mk_datetime 2024 3 1 0 0 ∉ kept) ∧
    (∀ t, t ∈ kept ↔ t ∈ fetched ∧ DateTime.lt t (mk_datetime 2024 3 1 0 0)).
Proof.
  pose (w := fresh busy_remote (λ _, 0)).
  pose (round :=
    get_timeslots_for_location_ids [5446] (Some "2024-03-01") 10 w).
  destruct (C3_cutoff_is_exclusive (Some "2024-03-01") 10 [] 5446 [] w
              [(5446, [mk_datetime 2024 2 29 23 59])] round.2)
    as (acc & w1 & fetched & kept & Hpre & Hfetch & Hres & _ & Hcut).
  - by vm_compute.
  - apply not_elem_of_nil.
  - split; [by vm_compute|].
    injection Hpre as <- <-. injection Hres as <-.
    assert (Hf : fetched = [mk_datetime 2024 2 29 23 59; mk_datetime 2024 3 1 0 0;
                            mk_datetime 2024 3 5 9 0]).
    { assert (Hrun :
        (get_timeslots_for_location_id 5446 10 w).1
          = Ok [mk_datetime 2024 2 29 23 59; mk_datetime 2024 3 1 0 0;
                mk_datetime 2024 3 5 9 0]) by by vm_compute.
      rewrite Hfetch in Hrun. by injection Hrun. }
    exists fetched, [mk_datetime 2024 2 29 23 59].
    split; [done|]. split; [done|].
    destruct (Hcut "2024-03-01" (mk_datetime 2024 3 1 0 0) eq_refl)
      as (_ & _ & Hnot & Hiff); [by vm_compute|done].
Defined.

(** C4 at a response with four records, two of them equal: three timeslots
    come back, in ascending order. *)
Lemma C4_fetch_is_deduplicated_and_sorted_witness :
  ∃ ts,
    (get_timeslots_for_location_id 5446 10 (fresh busy_remote (λ _, 0))).1
      = Ok ts ∧
    ts = [mk_datetime 2024 2 29 23 59; mk_datetime 2024 3 1 0 0;
          mk_datetime 2024 3 5 9 0] ∧
    NoDup ts ∧
    (∀ i a b, ts !! i = Some a → ts !! S i = Some b → DateTime.le a b).
Proof.
  pose (w := fresh busy_remote (λ _, 0)).
  destruct (C4_fetch_is_deduplicated_and_sorted 5446 10 w
              (mk_response 200
                 (Some (VList [slot "2024-03-01T00:00";
                               slot "2024-02-29T23:59";
                               slot "2024-03-05T09:00";
                               slot "2024-02-29T23:59"])))
              (VList [slot "2024-03-01T00:00"; slot "2024-02-29T23:59";
                      slot "2024-03-05T09:00"; slot "2024-02-29T23:59"])
              [slot "2024-03-01T00:00"; slot "2024-02-29T23:59";
               slot "2024-03-05T09:00"; slot "2024-02-29T23:59"])
    as (ts & Hrun & Hnd & Hsorted & _).
  - reflexivity.
  - reflexivity.
  - reflexivity.
  - reflexivity.
  - apply Forall_forall. repeat constructor.
  - exists ts. fold w. rewrite Hrun. split; [done|]. split; [|done].
    assert (Hts :
      (get_timeslots_for_location_id 5446 10 w).1
        = Ok [mk_datetime 2024 2 29 23 59; mk_datetime 2024 3 1 0 0;
              mk_datetime 2024 3 5 9 0]) by by vm_compute.
    rewrite Hrun in Hts. by injection Hts.
Defined.

Lemma C5_delay_between_1_and_3_witness :
  -10 ≤ 3 ≤ 10 ∧
  PrimFloat.leb 1 (jitter 3) = true ∧ PrimFloat.leb (jitter 3) 3 = true.
Proof.
  split; [lia|].
  destruct (C5_delay_between_1_and_3 (fresh busy_remote (λ _, 0)) 3)
    as (Hlo & Hhi & _); [lia|done].
Defined.

(** C8 at a response with status 503 whose body is the empty JSON array: the
    fetch raises, with the status and the decoded body. *)
Lemma C8_fetch_raises_iff_witness :
  (get_timeslots_for_location_id 5446 10
     (mk_world busy_remote (λ _, 0) 3 0 [])).1
    = Raise (ValueError (NonSuccess 503 (VList []))).
Proof.
  destruct (C8_fetch_raises_iff 5446 10 (mk_world busy_remote (λ _, 0) 3 0 []))
    as (_ & Hraise & _).
  by apply (Hraise (mk_response 503 (Some (VList [])))).
Defined.

(** The claim of C8 fails in its "only if": a response with status 200 whose
    body is not JSON makes the fetch raise, although the response is a
    success and no record fails to parse, there being no record. *)
Lemma C8_success_with_undecodable_body :
  remote (fresh broken_remote (λ _, 0)) 0%nat (TIMESLOT_URL 10 5446)
    = Some (mk_response 200 None) ∧
  status_code (mk_response 200 None) = 200 ∧
  (get_timeslots_for_location_id 5446 10 (fresh broken_remote (λ _, 0))).1
    = Raise (ValueError NotJSON) ∧
  is_ok (get_timeslots_for_location_id 5446 10
           (fresh broken_remote (λ _, 0))).1 = false.
Proof. by vm_compute. Qed.

(** The other answers of that service.  A status 503 with a body that is not
    JSON raises the decoding error, the body being decoded while the message
    of the status error is put together; a JSON object for a body is iterated
    over its keys, which are strings and have no [startTimestamp]; no answer
    at all is the error of the request. *)
Lemma fetch_at_broken_remote :
  (get_timeslots_for_location_id 5446 10
     (mk_world broken_remote (λ _, 0) 1 0 [])).1
    = Raise (ValueError NotJSON) ∧
  (get_timeslots_for_location_id 5446 10
     (mk_world broken_remote (λ _, 0) 2 0 [])).1
    = Raise (TypeError (NoStringIndex "str")) ∧
  (get_timeslots_for_location_id 5446 10
     (mk_world broken_remote (λ _, 0) 3 0 [])).1
    = Raise RequestException.
Proof. by vm_compute. Qed.

(** C10 at a round that visits 5446, 5020 and 5446 again: two entries, and
    5446 holds what its second fetch gave. *)
Lemma C10_duplicate_location_ids_witness :
  (get_timeslots_for_location_ids [5446; 5020; 5446] None 10
     (fresh busy_remote (λ _, 0))).1
    = Ok [(5446, [mk_datetime 2024 2 10 8 15]); (5020, [])] ∧
  requests_made
    (get_timeslots_for_location_ids [5446; 5020; 5446] None 10
       (fresh busy_remote (λ _, 0))).2 = 3%nat ∧
  NoDup [5446; 5020].
Proof.
  pose (w := fresh busy_remote (λ _, 0)).
  pose (round := get_timeslots_for_location_ids [5446; 5020; 5446] None 10 w).
  destruct (C10_duplicate_location_ids [5446; 5020; 5446] None 10 w
              [(5446, [mk_datetime 2024 2 10 8 15]); (5020, [])] round.2)
    as (Hnd & _ & _ & Hreq & _).
  - by vm_compute.
  - split; [by vm_compute|]. split; [exact Hreq|exact Hnd].
Defined.

(** * Further properties *)

(** ** What a fetch returns depends on the set of timestamps only *)

Lemma sorted_set_ext ts1 ts2 :
  (∀ t, t ∈ ts1 ↔ t ∈ ts2) → sorted_set ts1 = sorted_set ts2.
Proof.
  intros Hsame. apply (Sorted_unique DateTime.le); try apply sorted_set_Sorted.
  apply NoDup_Permutation; try apply sorted_set_NoDup.
  intros t. by rewrite !sorted_set_elem_of.
Qed.

Lemma fetch_Ok_sorted_set location_id limit w fetched :
  (get_timeslots_for_location_id location_id limit w).1 = Ok fetched →
  ∃ parsed, fetched = sorted_set parsed.
Proof.
  rewrite get_timeslots_for_location_id_run. simpl.
  destruct (answer _) as [doc|e]; [|done]. simpl.
  destruct (iterate doc) as [records|e]; [|done]. simpl.
  destruct (mapM _ _) as [parsed|e]; [|done].
  intros [= <-]. by exists parsed.
Qed.

(** X1.  Two successful responses whose records parse to the same set of
    timestamps make the fetch return the same list, whatever the order of the
    records and however often a timestamp is repeated. *)
Theorem fetch_ignores_order_and_repeats
    location_id limit w1 w2 resp1 resp2 doc1 doc2 records1 records2 ts1 ts2 :
  remote w1 (requests_made w1) (TIMESLOT_URL limit location_id) = Some resp1 →
  remote w2 (requests_made w2) (TIMESLOT_URL limit location_id) = Some resp2 →
  status_code resp1 = 200 →
  status_code resp2 = 200 →
  json resp1 = Ok doc1 →
  json resp2 = Ok doc2 →
  iterate doc1 = Ok records1 →
  iterate doc2 = Ok records2 →
  mapM parse_timeslot_datetime records1 = Ok ts1 →
  mapM parse_timeslot_datetime records2 = Ok ts2 →
  (∀ t, t ∈ ts1 ↔ t ∈ ts2) →
  (get_timeslots_for_location_id location_id limit w1).1
    = (get_timeslots_for_location_id location_id limit w2).1 ∧
  (get_timeslots_for_location_id location_id limit w1).1
    = Ok (sorted_set ts1).
Proof.
  intros Hr1 Hr2 Hs1 Hs2 Hj1 Hj2 Hi1 Hi2 Hp1 Hp2 Hsame.
  rewrite !get_timeslots_for_location_id_run. simpl.
  rewrite Hr1, Hr2.
  rewrite (answer_success _ _ Hs1 Hj1), (answer_success _ _ Hs2 Hj2). simpl.
  rewrite Hi1, Hi2. simpl. rewrite Hp1, Hp2. simpl.
  by rewrite (sorted_set_ext ts1 ts2).
Qed.

(** ** The lists of a round *)

Lemma StronglySorted_sublist {A} (R : relation A) (l1 l2 : list A) :
  l1 `sublist_of` l2 → StronglySorted R l2 → StronglySorted R l1.
Proof.
  induction 1 as [|x l1 l2 Hsub IH|x l1 l2 Hsub IH]; [done| |];
    intros [Hl2 Hx]%StronglySorted_inv.
  - constructor; [by apply IH|].
    rewrite Forall_forall in Hx |- *. intros y Hy. apply Hx.
    by eapply elem_of_sublist.
  - by apply IH.
Qed.

Lemma sorted_set_strictly_increasing ts :
  StronglySorted DateTime.lt (sorted_set ts).
Proof.
  pose proof (sorted_set_NoDup ts) as Hnd.
  assert (Hs : StronglySorted DateTime.le (sorted_set ts))
    by (apply Sorted_StronglySorted; [apply _|apply sorted_set_Sorted]).
  induction Hs as [|x l Hl IH Hx]; [constructor|].
  apply NoDup_cons in Hnd as [Hnotin Hnd].
  constructor; [by apply IH|].
  rewrite Forall_forall in Hx |- *. intros y Hy. apply lt_le_ne.
  split; [by apply Hx|]. by intros ->.
Qed.

Lemma keep_before_sublist before timeslots kept :
  keep_before before timeslots = Ok kept → kept `sublist_of` timeslots.
Proof.
  revert kept. induction timeslots as [|t ts IH]; intros kept.
  - intros [= <-]. constructor.
  - simpl. destruct before as [b|].
    + destruct (strptime b "%Y-%m-%d") as [cutoff|e]; [|done]. simpl.
      destruct (keep_before (Some b) ts) as [rest|e]; [|done]. simpl.
      intros [= <-]. destruct (DateTime.ltb t cutoff).
      * by constructor; apply IH.
      * by constructor; apply IH.
    + simpl. destruct (keep_before None ts) as [rest|e]; [|done]. simpl.
      intros [= <-]. by constructor; apply IH.
Qed.

(** With a cutoff that does not parse, the filter passes an empty list and
    raises on anything else. *)
Lemma keep_before_unparsed b e timeslots :
  strptime b "%Y-%m-%d" = Raise e →
  keep_before (Some b) timeslots
    = match timeslots with [] => Ok [] | _ :: _ => Raise e end.
Proof. intros Hb. destruct timeslots; [done|]. simpl. by rewrite Hb. Qed.

Lemma elem_of_setitem {V} k (v : V) d k' v' :
  (k', v') ∈ setitem k v d → (k', v') = (k, v) ∨ (k', v') ∈ d.
Proof.
  induction d as [|[k0 v0] d IH]; simpl.
  - intros ->%list_elem_of_singleton. by left.
  - case_decide as Hk.
    + intros [->|?]%elem_of_cons; [left; by subst|right; by right].
    + intros [->|[?|?]%IH]%elem_of_cons; [right; by left|by left|right; by right].
Qed.

(** Every list of a completed round is the filtered result of some fetch of
    that round. *)
Lemma for_location_ids_entries (Q : Z → list datetime → Prop)
    before limit location_ids acc w res w' :
  for_location_ids before limit location_ids acc w = (Ok res, w') →
  (∀ location_id timeslots, (location_id, timeslots) ∈ acc →
     Q location_id timeslots) →
  (∀ location_id w1 fetched kept,
     location_id ∈ location_ids →
     (get_timeslots_for_location_id location_id limit w1).1 = Ok fetched →
     keep_before before fetched = Ok kept → Q location_id kept) →
  ∀ location_id timeslots, (location_id, timeslots) ∈ res →
    Q location_id timeslots.
Proof.
  revert acc w. induction location_ids as [|location_id rest IH];
    intros acc w.
  { intros [= <- <-] Hacc _. exact Hacc. }
  rewrite for_location_ids_cons.
  destruct (get_timeslots_for_location_id _ _ _) as [[fetched|e] w1] eqn:Hf;
    [|done].
  destruct (keep_before _ _) as [kept|e] eqn:Hk; [|done].
  intros Hrun Hacc Hstep. eapply IH; [exact Hrun| |].
  - intros k ts [[= -> ->]|Hin]%elem_of_setitem; [|by apply Hacc].
    eapply (Hstep location_id w); [by left| |done]. by rewrite Hf.
  - intros k w2 f kp Hin. apply Hstep. by right.
Qed.

(** X2.  In the result of a completed round every list is strictly
    increasing (so it has no duplicates either), and with a cutoff that
    parses every timeslot of every list is strictly before the cutoff. *)
Theorem round_lists_are_increasing_and_before_cutoff
    location_ids before limit w res w' :
  get_timeslots_for_location_ids location_ids before limit w = (Ok res, w') →
  ∀ location_id timeslots, (location_id, timeslots) ∈ res →
    StronglySorted DateTime.lt timeslots ∧ NoDup timeslots ∧
    ∀ b cutoff, before = Some b → strptime b "%Y-%m-%d" = Ok cutoff →
      ∀ t, t ∈ timeslots → DateTime.lt t cutoff.
Proof.
  unfold get_timeslots_for_location_ids. intros Hrun.
  eapply (for_location_ids_entries _ _ _ _ _ _ _ _ Hrun).
  - by intros ?? ?%elem_of_nil.
  - intros location_id w1 fetched kept _ Hfetch Hkeep.
    apply fetch_Ok_sorted_set in Hfetch as (parsed & ->).
    pose proof (keep_before_sublist _ _ _ Hkeep) as Hsub.
    split; [|split].
    + eapply StronglySorted_sublist; [done|].
      apply sorted_set_strictly_increasing.
    + eapply sublist_NoDup; [apply sorted_set_NoDup|exact Hsub].
    + intros b cutoff -> Hb t Ht.
      rewrite (keep_before_Some _ _ _ Hb) in Hkeep. injection Hkeep as <-.
      by apply list_elem_of_filter in Ht as [? _].
Qed.

(** ** The loop *)

Lemma round_unparsed_cutoff b e location_ids limit w res w' :
  strptime b "%Y-%m-%d" = Raise e →
  get_timeslots_for_location_ids location_ids (Some b) limit w = (Ok res, w') →
  any_values res = false.
Proof.
  intros Hb Hrun. apply any_values_false.
  unfold get_timeslots_for_location_ids in Hrun.
  eapply (for_location_ids_entries (λ _ ts, ts = []) _ _ _ _ _ _ _ Hrun).
  - by intros ?? ?%elem_of_nil.
  - intros location_id w1 fetched kept _ _.
    rewrite (keep_before_unparsed _ _ _ Hb). by destruct fetched; intros [= <-].
Qed.

Lemma poll_until_found_unparsed_cutoff b e rounds location_ids limit w r w' :
  strptime b "%Y-%m-%d" = Raise e →
  poll_until_found rounds location_ids (Some b) limit w = Some (r, w') →
  is_ok r = false.
Proof.
  intros Hb. revert w. induction rounds as [|rounds IH]; intros w; [done|].
  rewrite poll_until_found_S.
  destruct (get_timeslots_for_location_ids _ _ _ _) as [[ats|e'] w1] eqn:Hrun.
  - rewrite (round_unparsed_cutoff _ _ _ _ _ _ _ Hb Hrun). apply IH.
  - by intros [= <- <-].
Qed.

(** X4.  A cutoff that does not parse goes unnoticed as long as nothing is
    fetched: the filter passes an empty list without reading the cutoff, and
    raises the parse error on any other list.  So with such a cutoff the loop
    never hands on a result and the run never sends anything: if it ends, it
    ends with an error. *)
Theorem unparsed_cutoff_never_notifies b e :
  strptime b "%Y-%m-%d" = Raise e →
  keep_before (Some b) [] = Ok [] ∧
  (∀ t timeslots, keep_before (Some b) (t :: timeslots) = Raise e) ∧
  (∀ rounds location_ids limit w r w',
     poll_until_found rounds location_ids (Some b) limit w = Some (r, w') →
     is_ok r = false) ∧
  (∀ repr_str rounds account location_ids limit silent w r w',
     program repr_str rounds account location_ids (Some b) limit silent w
       = Some (r, w') →
     is_ok r = false).
Proof.
  intros Hb. split; [done|]. split; [|split].
  - intros t timeslots. by rewrite (keep_before_unparsed _ _ _ Hb).
  - intros rounds location_ids limit w r w'.
    by apply poll_until_found_unparsed_cutoff with (e := e).
  - intros repr_str rounds account location_ids limit silent w r w'.
    unfold program, main.
    destruct (import_mapping_from_url repr_str w) as [[loc_mapping|e0] w1];
      [|by intros [= <- <-]].
    destruct (poll_until_found _ _ _ _ _) as [[[ats|e0] w2]|] eqn:Hpoll;
      [| |done].
    + by apply poll_until_found_unparsed_cutoff with (e := e) in Hpoll.
    + by intros [= <- <-].
Qed.

Lemma unparsed_cutoff_never_notifies_witness :
  strptime "2024-13-01" "%Y-%m-%d"
    = Raise (ValueError (TimeDataMismatch "2024-13-01" "%Y-%m-%d")) ∧
  fst <$> poll_until_found 1 [5446] (Some "2024-13-01") 10
            (fresh busy_remote (λ _, 0))
    = Some (Raise (ValueError (TimeDataMismatch "2024-13-01" "%Y-%m-%d"))) ∧
  keep_before (Some "2024-13-01") [mk_datetime 2024 3 1 9 0]
    = Raise (ValueError (TimeDataMismatch "2024-13-01" "%Y-%m-%d")).
Proof.
  assert (Hb : strptime "2024-13-01" "%Y-%m-%d"
                 = Raise (ValueError (TimeDataMismatch "2024-13-01" "%Y-%m-%d")))
    by by vm_compute.
  destruct (unparsed_cutoff_never_notifies _ _ Hb) as (_ & Hcons & _).
  split; [exact Hb|]. split; [by vm_compute|]. apply Hcons.
Defined.

Lemma length_round_events limit location_ids pauses :
  length pauses = length location_ids →
  length (round_events limit location_ids pauses)
    = (2 * length location_ids)%nat.
Proof.
  revert pauses. induction location_ids as [|k ks IH]; intros [|p ps] Hlen;
    try done.
  rewrite round_events_cons. simpl in *. rewrite IH by lia. lia.
Qed.

Lemma for_location_ids_draws before limit location_ids acc w res w' :
  for_location_ids before limit location_ids acc w = (Ok res, w') →
  draws_made w' = (draws_made w + length location_ids)%nat.
Proof.
  revert acc w. induction location_ids as [|location_id rest IH];
    intros acc w.
  { intros [= <- <-]. simpl. lia. }
  rewrite for_location_ids_cons.
  pose proof (fetch_world location_id limit w) as Hw1.
  destruct (get_timeslots_for_location_id _ _ _) as [[fetched|e] w1]; [|done].
  simpl in Hw1. subst w1.
  destruct (keep_before _ _) as [kept|e]; [|done].
  intros ->%IH. simpl. lia.
Qed.

(** X5.  A loop that ends normally has run some number of fruitless rounds and
    one more: with [n] locations and [j] fruitless rounds it made
    [(j + 1) * n] requests and [(j + 1) * n + j] sleeps (one per location and
    round, one more after each fruitless round), and nothing else. *)
Theorem loop_requests_and_sleeps rounds location_ids before limit w ats w' :
  poll_until_found rounds location_ids before limit w = Some (Ok ats, w') →
  ∃ j, (j < rounds)%nat ∧
    requests_made w'
      = (requests_made w + S j * length location_ids)%nat ∧
    draws_made w'
      = (draws_made w + S j * length location_ids + j)%nat ∧
    length (trace w')
      = (length (trace w) + 2 * (S j * length location_ids) + j)%nat.
Proof.
  revert w. induction rounds as [|rounds IH]; intros w; [done|].
  rewrite poll_until_found_S.
  destruct (get_timeslots_for_location_ids _ _ _ _) as [[r1|e] w1] eqn:Hrun;
    [|done].
  unfold get_timeslots_for_location_ids in Hrun.
  pose proof (for_location_ids_draws _ _ _ _ _ _ _ Hrun) as Hdraws.
  destruct (for_location_ids_effects before limit location_ids [] w)
    as (pauses & _ & Heff). rewrite Hrun in Heff.
  destruct Heff as (Hlen & Htr & Hreq & _).
  assert (Htrlen : length (trace w1)
                     = (length (trace w) + 2 * length location_ids)%nat).
  { rewrite Htr, length_app, length_round_events by done. lia. }
  destruct (any_values r1).
  - intros [= <- <-]. exists 0%nat. repeat split; lia.
  - intros (j & Hj & Hq & Hd & Ht)%IH. exists (S j). simpl in Hq, Hd, Ht.
    rewrite length_app in Ht. simpl in Ht. repeat split; lia.
Qed.

Lemma loop_requests_and_sleeps_witness :
  ∃ j, (j < 5)%nat ∧
    requests_made
      (default (fresh scenario_remote (λ _, 0))
         (snd <$> poll_until_found 5 [5446; 5020] None 10
                    (fresh scenario_remote (λ _, 0))))
      = (0 + S j * 2)%nat.
Proof.
  destruct (loop_requests_and_sleeps 5 [5446; 5020] None 10
              (fresh scenario_remote (λ _, 0))
              [(5446, [mk_datetime 2024 3 1 9 0]); (5020, [])]
              (default (fresh scenario_remote (λ _, 0))
                 (snd <$> poll_until_found 5 [5446; 5020] None 10
                            (fresh scenario_remote (λ _, 0)))))
    as (j & Hj & Hreq & _); [by vm_compute|].
  exists j. split; [exact Hj|exact Hreq].
Defined.

Lemma for_location_ids_key_order before limit location_ids acc w res w' :
  for_location_ids before limit location_ids acc w = (Ok res, w') →
  res.*1
    = foldl (λ seen location_id,
               if decide (location_id ∈ seen) then seen
               else seen ++ [location_id])
        acc.*1 location_ids.
Proof.
  revert acc w. induction location_ids as [|location_id rest IH];
    intros acc w.
  { by intros [= <- <-]. }
  rewrite for_location_ids_cons.
  destruct (get_timeslots_for_location_id _ _ _) as [[fetched|e] w1]; [|done].
  destruct (keep_before _ _) as [kept|e]; [|done].
  intros ->%IH. simpl. by rewrite setitem_keys.
Qed.

(** X6.  What a loop that ends normally hands on has one entry per distinct
    location, in the order in which the locations first appear in the list,
    and at least one entry with a timeslot. *)
Theorem loop_result_shape rounds location_ids before limit w ats w' :
  poll_until_found rounds location_ids before limit w = Some (Ok ats, w') →
  ats.*1 = in_order_of_appearance location_ids ∧
  ∃ location_id timeslots,
    (location_id, timeslots) ∈ ats ∧ timeslots ≠ [].
Proof.
  revert w. induction rounds as [|rounds IH]; intros w; [done|].
  rewrite poll_until_found_S.
  destruct (get_timeslots_for_location_ids _ _ _ _) as [[r1|e] w1] eqn:Hrun;
    [|done].
  destruct (any_values r1) eqn:Hany; [|apply IH].
  intros [= <- <-]. split; [|by apply any_values_true].
  by apply for_location_ids_key_order in Hrun.
Qed.

Lemma loop_result_shape_witness :
  [5446; 5020] = in_order_of_appearance [5446; 5020; 5446].
Proof.
  destruct (loop_result_shape 4 [5446; 5020; 5446] None 10
              (fresh busy_remote (λ _, 0))
              [(5446, [mk_datetime 2024 2 10 8 15]); (5020, [])]
              (default (fresh busy_remote (λ _, 0))
                 (snd <$> poll_until_found 4 [5446; 5020; 5446] None 10
                            (fresh busy_remote (λ _, 0)))))
    as [Hkeys _]; [by vm_compute|exact Hkeys].
Defined.

(** ** The text of a notification *)

Lemma for_items_blocks location_mapping all_timeslots texts :
  (∀ location_id timeslots,
     (location_id, timeslots) ∈ all_timeslots → timeslots ≠ [] →
     is_Some (location_mapping !! location_id)) →
  for_items location_mapping all_timeslots texts
    = Ok (texts ++ blocks location_mapping all_timeslots).
Proof.
  revert texts.
  induction all_timeslots as [|[location_id timeslots] rest IH];
    intros texts Hlab.
  { simpl. by rewrite app_nil_r. }
  assert (Hrest : ∀ texts',
    for_items location_mapping rest texts'
      = Ok (texts' ++ blocks location_mapping rest)).
  { intros texts'. apply IH. intros k ts Hin. apply Hlab. by right. }
  rewrite for_items_cons. unfold blocks at 1. simpl. fold (blocks location_mapping rest).
  destruct timeslots as [|t ts]; simpl; [apply Hrest|].
  destruct (Hlab location_id (t :: ts)) as [label Hlabel]; [by left|done|].
  unfold location_text, label_of. rewrite Hlabel. simpl.
  by rewrite Hrest, <- app_assoc.
Qed.

Lemma length_blocks location_mapping all_timeslots :
  (∀ location_id timeslots,
     (location_id, timeslots) ∈ all_timeslots → timeslots ≠ [] →
     is_Some (location_mapping !! location_id)) →
  length (blocks location_mapping all_timeslots)
    = length (filter (λ entry, entry.2 ≠ []) all_timeslots).
Proof.
  induction all_timeslots as [|[location_id timeslots] rest IH]; intros Hlab;
    [done|].
  assert (Hrest : length (blocks location_mapping rest)
                    = length (filter (λ entry, entry.2 ≠ []) rest)).
  { apply IH. intros k ts Hin. apply Hlab. by right. }
  destruct timeslots as [|t ts].
  - rewrite filter_cons_False by (simpl; intros H; by apply H).
    unfold blocks at 1. simpl. exact Hrest.
  - rewrite filter_cons_True by done.
    destruct (Hlab location_id (t :: ts)) as [label Hlabel]; [by left|done|].
    unfold blocks at 1. simpl. rewrite Hlabel. simpl. f_equal. exact Hrest.
Qed.

(** X7.  When every location with timeslots has a label, the text is the
    banner followed by one block per location with timeslots, in the order of
    the dictionary; a block is the line of the label and the id followed by
    one line per timeslot, in the order of the list.  Only when there is no
    block does [silent] matter: the text is then empty if it is set, and the
    banner with the explanatory line if it is not. *)
Theorem text_is_banner_and_blocks location_mapping all_timeslots silent :
  (∀ location_id timeslots,
     (location_id, timeslots) ∈ all_timeslots → timeslots ≠ [] →
     is_Some (location_mapping !! location_id)) →
  generate_notification_texts location_mapping all_timeslots silent
    = Ok match blocks location_mapping all_timeslots with
         | [] => if silent then [] else [banner; "No open timeslots found!"]
         | _ :: _ => banner :: blocks location_mapping all_timeslots
         end ∧
  length (blocks location_mapping all_timeslots)
    = length (filter (λ entry, entry.2 ≠ []) all_timeslots) ∧
  ∀ label location_id timeslots,
    block label location_id timeslots
      = join newline
          ((label +:+ " (" +:+ str_int location_id +:+ ")")
             :: (timeslot_text <$> timeslots)).
Proof.
  intros Hlab. split; [|split; [by apply length_blocks|reflexivity]].
  unfold generate_notification_texts.
  rewrite (for_items_blocks _ _ _ Hlab). simpl.
  destruct (blocks location_mapping all_timeslots); [by destruct silent|done].
Qed.

Lemma text_is_banner_and_blocks_witness :
  generate_notification_texts scenario_mapping
    [(5020, []); (5446, [mk_datetime 2024 3 1 9 0; mk_datetime 2024 3 12 14 30])]
    true
    = Ok [banner;
          "Location A (City, ST) (5446)" +:+ newline
            +:+ "    March 1, 2024 (Fri) @ 9:00 AM" +:+ newline
            +:+ "    March 12, 2024 (Tue) @ 2:30 PM"].
Proof.
  destruct (text_is_banner_and_blocks scenario_mapping
              [(5020, []);
               (5446, [mk_datetime 2024 3 1 9 0; mk_datetime 2024 3 12 14 30])]
              true) as [Htext _].
  - intros location_id timeslots Hin Hne.
    apply elem_of_cons in Hin as [[= -> ->]|Hin]; [done|].
    apply list_elem_of_singleton in Hin as [= -> ->]. by eexists.
  - rewrite Htext. by vm_compute.
Defined.

Lemma any_values_blocks location_mapping all_timeslots texts out :
  any_values all_timeslots = true →
  for_items location_mapping all_timeslots texts = Ok out →
  (length texts < length out)%nat.
Proof.
  revert texts.
  induction all_timeslots as [|[location_id timeslots] rest IH]; intros texts;
    [done|].
  assert (Hmono : ∀ texts' out',
    for_items location_mapping rest texts' = Ok out' →
    (length texts' ≤ length out')%nat).
  { clear. induction rest as [|[k ts] rest IH]; intros texts' out'.
    - by intros [= <-].
    - rewrite for_items_cons. case_bool_decide.
      + destruct (location_text _ _ _); [|done].
        intros ?%IH. rewrite length_app in *. simpl in *. lia.
      + apply IH. }
  rewrite for_items_cons. destruct timeslots as [|t ts].
  - rewrite bool_decide_false by (simpl; lia). apply IH.
  - rewrite bool_decide_true by (simpl; lia). intros _.
    destruct (location_text _ _ _); [|done].
    intros ?%Hmono. rewrite length_app in *. simpl in *. lia.
Qed.

Lemma generate_after_loop location_mapping all_timeslots silent :
  any_values all_timeslots = true →
  generate_notification_texts location_mapping all_timeslots silent
    = for_items location_mapping all_timeslots [banner] ∧
  ∀ out,
    for_items location_mapping all_timeslots [banner] = Ok out →
    ∃ first others, out = banner :: first :: others.
Proof.
  intros Hany. unfold generate_notification_texts.
  destruct (for_items _ _ _) as [out|e] eqn:Hitems; [|split; [done|done]].
  pose proof (any_values_blocks _ _ _ _ Hany Hitems) as Hlen. simpl in Hlen.
  assert (Hout : ∃ first others, out = banner :: first :: others).
  { clear Hlen.
    assert (Hpre : ∀ all texts out',
      for_items location_mapping all texts = Ok out' → ∃ more, out' = texts ++ more).
    { clear. induction all as [|[k ts] rest IH]; intros texts out'.
      - intros [= <-]. exists []. by rewrite app_nil_r.
      - rewrite for_items_cons. case_bool_decide.
        + destruct (location_text _ _ _) as [text|]; [|done].
          intros [more ->]%IH. exists (text :: more). by rewrite <- app_assoc.
        + apply IH. }
    destruct (Hpre _ _ _ Hitems) as [more ->].
    pose proof (any_values_blocks _ _ _ _ Hany Hitems) as Hlen.
    destruct more as [|first others]; [simpl in Hlen; lia|].
    by exists first, others. }
  split; [|by intros ? [= <-]].
  simpl. rewrite bool_decide_false; [done|]. lia.
Qed.

(** X8.  In a finished run [silent] never matters, because the loop hands on
    a result only when some location has a timeslot: the run is the same with
    the flag set or not, and when it ends normally it has printed the banner
    and at least one more text, and then mailed exactly these texts, once. *)
Theorem silent_changes_nothing repr_str rounds account location_ids before
    limit silent w :
  program repr_str rounds account location_ids before limit silent w
    = program repr_str rounds account location_ids before limit (negb silent)
        w ∧
  ∀ outs w',
    program repr_str rounds account location_ids before limit silent w
      = Some (Ok outs, w') →
    ∃ first others,
      outs = (Printed <$> banner :: first :: others)
             ++ [Mailed (SEND_FROM account) (APP_PASS account)
                   (SEND_TO account) "Global Entry - book Quick!"
                   (banner :: first :: others)].
Proof.
  unfold program, main.
  destruct (import_mapping_from_url repr_str w) as [[loc_mapping|e] w1];
    [|done].
  destruct (poll_until_found _ _ _ _ _) as [[[ats|e] w2]|] eqn:Hpoll;
    [|done|done].
  apply loop_result_shape in Hpoll as [_ Hany]. apply any_values_true in Hany.
  destruct (generate_after_loop (int_keys loc_mapping) ats silent Hany)
    as [-> Hshape].
  destruct (generate_after_loop (int_keys loc_mapping) ats (negb silent) Hany)
    as [-> _].
  split; [done|]. intros outs w'.
  destruct (for_items _ _ _) as [out|e]; [|done].
  intros [= <- <-]. destruct (Hshape out eq_refl) as (first & others & ->).
  by exists first, others.
Qed.

(** ** The location names *)

(** What comes of a decoded and iterated reply raises exactly when the reply
    is missing, is not a success, cannot be decoded or iterated, or when what
    is done with its items raises. *)
Lemma decoded_raises {A} (f : list value → result A) reply :
  is_ok (doc ← answer reply; items ← iterate doc; f items) = false ↔
  reply = None ∨
  ∃ resp,
    reply = Some resp ∧
    (status_code resp ≠ 200 ∨ body resp = None ∨
     ∃ doc, body resp = Some doc ∧
       (doc = VNone ∨ (∃ b, doc = VBool b) ∨ (∃ n, doc = VInt n) ∨
        ∃ items, iterate doc = Ok items ∧ is_ok (f items) = false)).
Proof.
  destruct (answer reply) as [doc|e] eqn:Hanswer; simpl.
  - destruct reply as [resp|]; [|done]. unfold answer, json in Hanswer.
    destruct (body resp) as [doc'|] eqn:Hbody; [|done]. simpl in Hanswer.
    case_bool_decide as Hs; [done|]. injection Hanswer as ->.
    destruct (iterate doc) as [items|e] eqn:Hit; simpl.
    + split.
      * intros Hf. right. exists resp. split; [done|]. right. right.
        exists doc. split; [done|]. right. right. right. by exists items.
      * intros [?|(r & [= <-] & [?|[?|(d & Hd & Hbad)]])];
          [done|done|congruence|].
        rewrite Hbody in Hd. injection Hd as <-.
        destruct Hbad as [->|[[b ->]|[[n ->]|(its & Hits & Hf)]]]; try done.
        rewrite Hit in Hits. by injection Hits as <-.
    + split; [|done]. intros _. right. exists resp. split; [done|].
      right. right. exists doc. split; [done|].
      assert (Hbad : is_ok (iterate doc) = false) by by rewrite Hit.
      apply iterate_raises in Hbad as [?|[?|?]]; auto.
  - split; [|done]. intros _.
    assert (Hbad : is_ok (answer reply) = false) by by rewrite Hanswer.
    apply answer_raises in Hbad as [?|(resp & ? & [?|?])]; [by left|..];
      right; exists resp; auto.
Qed.

Lemma import_mapping_from_url_run repr_str w :
  import_mapping_from_url repr_str w =
  (doc ← answer (remote w (requests_made w) MAPPING_URL);
   locations ← iterate doc;
   mapping_comprehension repr_str locations [],
   requested MAPPING_URL w).
Proof.
  unfold import_mapping_from_url.
  unfold mbind at 1, M_bind at 1. rewrite make_request_run.
  by destruct (answer _) as [doc|e].
Qed.

Lemma mapping_comprehension_cons repr_str location rest mapping :
  mapping_comprehension repr_str (location :: rest) mapping =
  key ← subscript location "id";
  name ← subscript location "name";
  city ← subscript location "city";
  state ← subscript location "state";
  if hashable key
  then mapping_comprehension repr_str rest
         (setitem_key key
            (str_value repr_str name +:+ " (" +:+ str_value repr_str city
             +:+ ", " +:+ str_value repr_str state +:+ ")")
            mapping)
  else Raise (TypeError (Unhashable (type_name key))).
Proof.
  simpl. unfold location_label.
  destruct (subscript location "id"); [|done]. simpl.
  destruct (subscript location "name"); [|done]. simpl.
  destruct (subscript location "city"); [|done]. simpl.
  by destruct (subscript location "state").
Qed.

Lemma mapping_comprehension_app repr_str pre post mapping :
  mapping_comprehension repr_str (pre ++ post) mapping =
  match mapping_comprehension repr_str pre mapping with
  | Ok mapping' => mapping_comprehension repr_str post mapping'
  | Raise e => Raise e
  end.
Proof.
  revert mapping. induction pre as [|location pre IH]; intros mapping; [done|].
  rewrite <- app_comm_cons, !mapping_comprehension_cons.
  destruct (subscript location "id") as [key|]; [|done]. simpl.
  destruct (subscript location "name"); [|done]. simpl.
  destruct (subscript location "city"); [|done]. simpl.
  destruct (subscript location "state"); [|done]. simpl.
  destruct (hashable key); [|done]. apply IH.
Qed.

(** The error of the comprehension is the error of reading a field of a
    location, or the error of storing under an id that cannot be hashed. *)
Lemma mapping_comprehension_raises repr_str locations mapping e :
  mapping_comprehension repr_str locations mapping = Raise e →
  ∃ location,
    location ∈ locations ∧
    ((∃ field,
        field ∈ ["id"; "name"; "city"; "state"] ∧
        subscript location field = Raise e) ∨
     ∃ key,
       subscript location "id" = Ok key ∧ hashable key = false ∧
       e = TypeError (Unhashable (type_name key))).
Proof.
  revert mapping. induction locations as [|location rest IH]; intros mapping;
    [done|].
  rewrite mapping_comprehension_cons.
  destruct (subscript location "id") as [key|] eqn:Hid;
    [|intros [= <-]; exists location; split; [by left|]; left; exists "id";
      split; [set_solver|done]].
  destruct (subscript location "name") eqn:Hname;
    [|intros [= <-]; exists location; split; [by left|]; left; exists "name";
      split; [set_solver|done]].
  destruct (subscript location "city") eqn:Hcity;
    [|intros [= <-]; exists location; split; [by left|]; left; exists "city";
      split; [set_solver|done]].
  destruct (subscript location "state") eqn:Hstate;
    [|intros [= <-]; exists location; split; [by left|]; left; exists "state";
      split; [set_solver|done]].
  simpl. destruct (hashable key) eqn:Hkey.
  - intros (l & ? & ?)%IH. exists l. split; [by right|done].
  - intros [= <-]. exists location. split; [by left|]. right. by exists key.
Qed.

Lemma mapping_comprehension_bad repr_str locations mapping :
  (∃ location,
     location ∈ locations ∧
     ((∃ field,
         field ∈ ["id"; "name"; "city"; "state"] ∧
         is_ok (subscript location field) = false) ∨
      ∃ key, subscript location "id" = Ok key ∧ hashable key = false)) →
  is_ok (mapping_comprehension repr_str locations mapping) = false.
Proof.
  revert mapping. induction locations as [|location rest IH];
    intros mapping (l & Hin & Hbad); [by apply elem_of_nil in Hin|].
  rewrite mapping_comprehension_cons.
  apply elem_of_cons in Hin as [->|Hin].
  - destruct Hbad as [(f & Hf & Hmiss)|(key & Hid & Hkey)].
    + repeat (apply elem_of_cons in Hf as [->|Hf];
              [by repeat (destruct (subscript location _); simpl in *;
                          try done)|]).
      by apply elem_of_nil in Hf.
    + rewrite Hid. simpl. rewrite Hkey.
      by repeat (destruct (subscript location _); simpl; try done).
  - destruct (subscript location "id") as [key|]; [|done]. simpl.
    destruct (subscript location "name"); [|done]. simpl.
    destruct (subscript location "city"); [|done]. simpl.
    destruct (subscript location "state"); [|done]. simpl.
    destruct (hashable key); [|done]. apply IH. eauto.
Qed.

Lemma find_key_setitem_key k x d k' :
  find_key (setitem_key k x d) k'
    = if decide (key_class k = key_class k') then Ok x else find_key d k'.
Proof.
  induction d as [|[k0 x0] d IH]; simpl.
  - by case_decide.
  - destruct (decide (key_class k0 = key_class k)) as [Heq|Hne]; simpl.
    + rewrite Heq. by case_decide.
    + rewrite IH. destruct (decide (key_class k0 = key_class k')) as [Heq'|?];
        [|done].
      rewrite decide_False; [done|]. congruence.
Qed.

(** The view by integer ids reads the dictionary as a lookup does. *)
Lemma label_of_int_keys d location_id :
  label_of (int_keys d) location_id = getitem_key d (VInt location_id).
Proof.
  unfold label_of, getitem_key. simpl.
  induction d as [|[k x] d IH]; simpl; [done|].
  destruct (key_class k) as [|b|n|s|items|fields] eqn:Hk;
    try (rewrite decide_False by done; exact IH).
  destruct (decide (VInt n = VInt location_id)) as [[= ->]|Hne].
  - by rewrite lookup_insert_eq.
  - rewrite lookup_insert_ne by congruence. exact IH.
Qed.

Lemma mapping_comprehension_other repr_str locations mapping res k :
  mapping_comprehension repr_str locations mapping = Ok res →
  (∀ location k', location ∈ locations → subscript location "id" = Ok k' →
     key_class k' ≠ key_class k) →
  find_key res k = find_key mapping k.
Proof.
  revert mapping. induction locations as [|location rest IH]; intros mapping.
  { by intros [= <-]. }
  rewrite mapping_comprehension_cons.
  destruct (subscript location "id") as [k0|] eqn:Hid; [|done]. simpl.
  destruct (subscript location "name"); [|done]. simpl.
  destruct (subscript location "city"); [|done]. simpl.
  destruct (subscript location "state"); [|done]. simpl.
  destruct (hashable k0); [|done].
  intros Hres Hother. rewrite (IH _ Hres).
  - rewrite find_key_setitem_key, decide_False; [done|].
    eapply Hother; [by left|done].
  - intros l k' Hin. apply Hother. by right.
Qed.

(** X9.  Fetching the mapping makes one request, to the locations endpoint.
    It raises exactly when no response comes back, or the status is not 200,
    or the body is not JSON, or the decoded body cannot be iterated, or one of
    the locations it iterates over has no field [id], [name], [city] or
    [state] to read (it is no object, or the object lacks the key), or has an
    [id] that cannot be hashed.  On a status other than 200 with a body that
    is JSON the error carries the status and the decoded body.  On a status
    200 with a JSON array the error is the one that reading such a field of a
    location raised, or the type error of the [id] that cannot be hashed. *)
Theorem mapping_fetch_raises_iff repr_str w :
  (is_ok (import_mapping_from_url repr_str w).1 = false ↔
     remote w (requests_made w) MAPPING_URL = None ∨
     ∃ resp,
       remote w (requests_made w) MAPPING_URL = Some resp ∧
       (status_code resp ≠ 200 ∨ body resp = None ∨
        ∃ doc, body resp = Some doc ∧
          (doc = VNone ∨ (∃ b, doc = VBool b) ∨ (∃ n, doc = VInt n) ∨
           ∃ locations location,
             iterate doc = Ok locations ∧ location ∈ locations ∧
             ((∃ field,
                 field ∈ ["id"; "name"; "city"; "state"] ∧
                 is_ok (subscript location field) = false) ∨
              ∃ key,
                subscript location "id" = Ok key ∧ hashable key = false)))) ∧
  (∀ resp doc,
     remote w (requests_made w) MAPPING_URL = Some resp →
     status_code resp ≠ 200 → body resp = Some doc →
     (import_mapping_from_url repr_str w).1
       = Raise (ValueError (NonSuccess (status_code resp) doc))) ∧
  (∀ resp locations e,
     remote w (requests_made w) MAPPING_URL = Some resp →
     status_code resp = 200 → body resp = Some (VList locations) →
     (import_mapping_from_url repr_str w).1 = Raise e →
     ∃ location,
       location ∈ locations ∧
       ((∃ field,
           field ∈ ["id"; "name"; "city"; "state"] ∧
           subscript location field = Raise e) ∨
        ∃ key,
          subscript location "id" = Ok key ∧ hashable key = false ∧
          e = TypeError (Unhashable (type_name key)))) ∧
  (∀ fields field,
     fields !! field = None →
     subscript (VDict fields) field = Raise (KeyError (VStr field))) ∧
  (import_mapping_from_url repr_str w).2 = requested MAPPING_URL w.
Proof.
  rewrite import_mapping_from_url_run. simpl.
  set (reply := remote w (requests_made w) MAPPING_URL).
  split; [|split; [|split; [|split]]]; [| | | |done].
  - rewrite decoded_raises. apply or_iff_compat_l.
    split; intros (resp & Hresp & Hbad); exists resp; (split; [done|]).
    + destruct Hbad as [?|[?|(doc & Hdoc & Hbad)]]; [by left|by right; left|].
      right. right. exists doc. split; [done|].
      destruct Hbad as [?|[?|[?|(locations & Hit & Hc)]]]; auto.
      right. right. right.
      destruct (mapping_comprehension repr_str locations []) as [|e] eqn:Hrun;
        [done|].
      apply mapping_comprehension_raises in Hrun
        as (location & Hin & [(field & Hf & Hr)|(key & Hid & Hkey & _)]);
        exists locations, location; (split; [done|]); (split; [done|]).
      * left. exists field. split; [done|]. by rewrite Hr.
      * right. by exists key.
    + destruct Hbad as [?|[?|(doc & Hdoc & Hbad)]]; [by left|by right; left|].
      right. right. exists doc. split; [done|].
      destruct Hbad as [?|[?|[?|(locations & location & Hit & Hin & Hc)]]];
        auto.
      right. right. right. exists locations. split; [done|].
      apply mapping_comprehension_bad. by exists location.
  - intros resp doc -> Hs Hbody. unfold answer, json. rewrite Hbody. simpl.
    by rewrite bool_decide_true.
  - intros resp locations e -> Hs Hbody.
    rewrite (answer_success _ (VList locations) Hs)
      by (unfold json; by rewrite Hbody).
    simpl. apply mapping_comprehension_raises.
  - intros fields field Hmiss. simpl. by rewrite Hmiss.
Qed.

Lemma mapping_fetch_raises_iff_witness :
  (import_mapping_from_url quoted (mk_world busy_remote (λ _, 0) 3 0 [])).1
    = Raise (ValueError (NonSuccess 503 (VList []))).
Proof.
  destruct (mapping_fetch_raises_iff quoted
              (mk_world busy_remote (λ _, 0) 3 0 [])) as (_ & Hraise & _).
  by apply (Hraise (mk_response 503 (Some (VList [])))).
Defined.

(** X10.  In the mapping that was fetched, an id is mapped to the label
    ["name (city, state)"] of the last location of the response with that id
    (ids being compared as dictionary keys), and an id that no location has
    is not a key.  The formatter's lookup by an integer id reads the mapping
    in this way. *)
Theorem mapping_labels repr_str w resp doc locations mapping w' :
  remote w (requests_made w) MAPPING_URL = Some resp →
  json resp = Ok doc →
  iterate doc = Ok locations →
  import_mapping_from_url repr_str w = (Ok mapping, w') →
  (∀ pre location post key name city state,
     locations = pre ++ location :: post →
     subscript location "id" = Ok key →
     subscript location "name" = Ok name →
     subscript location "city" = Ok city →
     subscript location "state" = Ok state →
     (∀ later key', later ∈ post → subscript later "id" = Ok key' →
        key_class key' ≠ key_class key) →
     getitem_key mapping key
       = Ok (str_value repr_str name +:+ " (" +:+ str_value repr_str city
             +:+ ", " +:+ str_value repr_str state +:+ ")")) ∧
  (∀ key,
     (∀ location key', location ∈ locations →
        subscript location "id" = Ok key' →
        key_class key' ≠ key_class key) →
     getitem_key mapping key
       = if hashable key then Raise (KeyError key)
         else Raise (TypeError (Unhashable (type_name key)))) ∧
  (∀ location_id,
     label_of (int_keys mapping) location_id
       = getitem_key mapping (VInt location_id)).
Proof.
  intros Hresp Hjson Hit. rewrite import_mapping_from_url_run, Hresp.
  unfold answer. rewrite Hjson. simpl.
  case_bool_decide; [done|]. simpl. rewrite Hit. simpl. intros [= Hres _].
  split; [|split].
  - intros pre location post key name city state -> Hid Hname Hcity Hstate
      Hlast.
    rewrite mapping_comprehension_app in Hres.
    destruct (mapping_comprehension repr_str pre []) as [before_|]; [|done].
    rewrite mapping_comprehension_cons, Hid, Hname, Hcity, Hstate in Hres.
    simpl in Hres. unfold getitem_key.
    destruct (hashable key); [|done].
    rewrite (mapping_comprehension_other _ _ _ _ _ Hres Hlast).
    rewrite find_key_setitem_key. by rewrite decide_True.
  - intros key Hnone. unfold getitem_key. destruct (hashable key); [|done].
    by rewrite (mapping_comprehension_other _ _ _ _ _ Hres Hnone).
  - apply label_of_int_keys.
Qed.

Lemma mapping_labels_witness :
  getitem_key (default [] (match (import_mapping_from_url quoted
                                    (fresh named_remote (λ _, 0))).1 with
                           | Ok mapping => Some mapping
                           | Raise _ => None
                           end))
    (VInt 5020)
    = Ok "Location B (Town, NY)".
Proof.
  pose (w := fresh named_remote (λ _, 0)).
  pose (first_ := VDict [("id", VInt 5446); ("name", VStr "Location A");
                         ("city", VStr "City"); ("state", VStr "ST")]).
  pose (second := VDict [("id", VInt 5020); ("name", VStr "Location B");
                         ("city", VStr "Town"); ("state", VStr "NY")]).
  destruct (mapping_labels quoted w
              (mk_response 200 (Some (VList [first_; second])))
              (VList [first_; second]) [first_; second]
              [(VInt 5446, "Location A (City, ST)");
               (VInt 5020, "Location B (Town, NY)")]
              (import_mapping_from_url quoted w).2 eq_refl eq_refl eq_refl)
    as (Hlast & _); [by vm_compute|].
  change (getitem_key [(VInt 5446, "Location A (City, ST)");
                       (VInt 5020, "Location B (Town, NY)")] (VInt 5020)
            = Ok "Location B (Town, NY)").
  apply (Hlast [first_] second [] (VInt 5020) (VStr "Location B")
               (VStr "Town") (VStr "NY"));
    try by vm_compute.
  by intros ?? ?%elem_of_nil.
Defined.

(** ** The requests of a run *)

Lemma TIMESLOT_URL_is_not_MAPPING_URL limit location_id :
  TIMESLOT_URL limit location_id ≠ MAPPING_URL.
Proof. unfold TIMESLOT_URL, MAPPING_URL. simpl. discriminate. Qed.

Lemma round_events_polling limit location_ids done pauses :
  (∀ location_id, location_id ∈ done → location_id ∈ location_ids) →
  Forall jittered pauses →
  Forall (polling_event limit location_ids) (round_events limit done pauses).
Proof.
  revert pauses. induction done as [|k ks IH]; intros pauses Hsub Hj.
  { destruct pauses; constructor. }
  destruct Hj as [|p ps Hp Hps]; [constructor|].
  rewrite round_events_cons. constructor; [|constructor].
  - exists k. split; [apply Hsub; by left|done].
  - exact Hp.
  - apply IH; [|done]. intros k' Hk'. apply Hsub. by right.
Qed.

Lemma round_polls_only before limit location_ids w :
  ∃ events,
    trace (get_timeslots_for_location_ids location_ids before limit w).2
      = trace w ++ events ∧
    Forall (polling_event limit location_ids) events.
Proof.
  unfold get_timeslots_for_location_ids.
  destruct (for_location_ids_effects before limit location_ids [] w)
    as (pauses & Hj & Heff).
  destruct (for_location_ids _ _ _ _ _) as [[res|e] w']; simpl.
  - destruct Heff as (_ & Htr & _). eexists. split; [exact Htr|].
    by apply round_events_polling.
  - destruct Heff as (done_ & failing & rest & -> & _ & Htr & _).
    eexists. split; [exact Htr|]. apply Forall_app. split.
    + apply round_events_polling; [|done].
      intros k Hk. apply elem_of_app. by left.
    + constructor; [|constructor]. exists failing. split; [|done].
      apply elem_of_app. right. by left.
Qed.

Lemma loop_polls_only rounds location_ids before limit w r w' :
  poll_until_found rounds location_ids before limit w = Some (r, w') →
  ∃ events,
    trace w' = trace w ++ events ∧
    Forall (polling_event limit location_ids) events.
Proof.
  revert w. induction rounds as [|rounds IH]; intros w; [done|].
  rewrite poll_until_found_S.
  destruct (round_polls_only before limit location_ids w)
    as (events1 & Htr1 & Hev1).
  destruct (get_timeslots_for_location_ids _ _ _ _) as [[ats|e] w1];
    simpl in Htr1.
  - destruct (any_values ats).
    + intros [= <- <-]. by exists events1.
    + intros (events2 & Htr2 & Hev2)%IH.
      exists (events1 ++ Sleep (jitter (next_draw w1)) :: events2). split.
      * rewrite Htr2. simpl. rewrite Htr1. by rewrite <- !app_assoc.
      * apply Forall_app. split; [done|]. constructor; [|done].
        exists (next_draw w1). split; [apply next_draw_range|done].
  - intros [= <- <-]. by exists events1.
Qed.

(** X11.  A run that ends, normally or not, has requested the mapping first
    and once; everything after that is a request for the timeslots of one of
    the given locations or a jittered sleep.  When fetching the mapping fails,
    the run ends there, whatever it was asked to poll: no timeslot is
    requested. *)
Theorem run_requests repr_str rounds account location_ids before limit silent
    w r w' :
  program repr_str rounds account location_ids before limit silent w
    = Some (r, w') →
  ∃ events,
    trace w' = trace w ++ Get MAPPING_URL :: events ∧
    Forall (polling_event limit location_ids) events ∧
    (Get MAPPING_URL ∉ events) ∧
    (is_ok (import_mapping_from_url repr_str w).1 = false → events = []).
Proof.
  unfold program, main.
  pose proof (import_mapping_from_url_run repr_str w) as Himport.
  destruct (import_mapping_from_url repr_str w) as [[loc_mapping|e] w1];
    injection Himport as _ ->.
  - destruct (poll_until_found _ _ _ _ _) as [[r2 w2]|] eqn:Hpoll; [|done].
    apply loop_polls_only in Hpoll as (events & Htr & Hev).
    intros Hend. assert (w' = w2) as ->.
    { destruct r2 as [ats|e2]; simpl in Hend;
        [destruct (generate_notification_texts _ _ _)|]; by injection Hend. }
    exists events. split; [|split; [done|split; [|done]]].
    + rewrite Htr. simpl. by rewrite <- app_assoc.
    + intros Hin. rewrite Forall_forall in Hev.
      destruct (Hev _ Hin) as (k & _ & Hurl).
      by eapply TIMESLOT_URL_is_not_MAPPING_URL.
  - intros [= <- <-]. exists []. split; [done|]. split; [constructor|].
    split; [by intros ?%elem_of_nil|done].
Qed.

Lemma run_requests_witness :
  ∃ events,
    trace (default (fresh named_remote (λ _, 0))
             (snd <$> program quoted 3 (mk_secrets "secret" "to@example.org"
                                   "from@example.org")
                        [5446; 5020] None 10 false
                        (fresh named_remote (λ _, 0))))
      = [] ++ Get MAPPING_URL :: events ∧
    length events = 9%nat.
Proof.
  pose (w := fresh named_remote (λ _, 0)).
  pose (run := program quoted 3 (mk_secrets "secret" "to@example.org"
                            "from@example.org")
                 [5446; 5020] None 10 false w).
  destruct (run_requests quoted 3 (mk_secrets "secret" "to@example.org"
                              "from@example.org")
              [5446; 5020] None 10 false w
              (default (Ok []) (fst <$> run))
              (default w (snd <$> run)))
    as (events & Htr & _); [by vm_compute|].
  exists events. split; [exact Htr|].
  assert (Hlen : length (trace (default w (snd <$> run))) = 10%nat)
    by by vm_compute.
  rewrite Htr in Hlen. simpl in Hlen. lia.
Defined.

(** ** The delay *)

(** X12.  The delay grows strictly with the draw: the 21 draws give 21
    different delays, from exactly 1 at the smallest draw over exactly 2 at
    draw 0 to exactly 3 at the largest. *)
Theorem delay_grows_with_the_draw r r' :
  -10 ≤ r → r < r' → r' ≤ 10 →
  PrimFloat.ltb (jitter r) (jitter r') = true ∧
  jitter (-10) = 1%float ∧ jitter 0 = 2%float ∧ jitter 10 = 3%float.
Proof.
  intros Hlo Hlt Hhi. split; [|by vm_compute].
  assert (Hstep : ∀ k, -10 ≤ k < 10 →
            PrimFloat.ltb (jitter k) (jitter (k + 1)) = true).
  { intros k Hk.
    assert (Hcases : Exists (λ c, k = c) (seqZ (-10) 20)).
    { apply Exists_exists. exists k. split; [|done]. apply elem_of_seqZ. lia. }
    vm_compute seqZ in Hcases.
    repeat (apply Exists_cons in Hcases as [->|Hcases]; [by vm_compute|]).
    by apply Exists_nil in Hcases. }
  assert (Hcases : Exists (λ c, (r, r') = c)
            (r1 ← seqZ (-10) 21; r2 ← seqZ (r1 + 1) (10 - r1); [(r1, r2)])).
  { apply Exists_exists. exists (r, r'). split; [|done].
    apply list_elem_of_bind. exists r. split; [|apply elem_of_seqZ; lia].
    apply list_elem_of_bind. exists r'. split; [by left|].
    apply elem_of_seqZ. lia. }
  vm_compute in Hcases.
  repeat (apply Exists_cons in Hcases as [[= -> ->]|Hcases]; [by vm_compute|]).
  by apply Exists_nil in Hcases.
Qed.

Lemma delay_grows_with_the_draw_witness :
  PrimFloat.ltb (jitter (-3)) (jitter 4) = true.
Proof.
  destruct (delay_grows_with_the_draw (-3) 4) as [Hlt _]; (lia || exact Hlt).
Defined.

(** ** The line of a timeslot *)

Lemma forallb_seqZ (f : Z → bool) lo n x :
  forallb f (seqZ lo n) = true → lo ≤ x < lo + n → f x = true.
Proof.
  intros Hall Hx. rewrite forallb_forall in Hall. apply Hall.
  apply list_elem_of_In, elem_of_seqZ. lia.
Qed.

Lemma replace_zero_spaceless a rest :
  spaceless a = true →
  replace_from " 0" " " 0 (a +:+ rest) = a +:+ replace_from " 0" " " 0 rest.
Proof.
  induction a as [|c a IH]; [done|]. simpl.
  intros [Hc Ha]%andb_prop. apply negb_true_iff, bool_decide_eq_false in Hc.
  rewrite bool_decide_false by congruence. simpl. by rewrite IH.
Qed.

Lemma replace_zero_char c rest :
  c ≠ " "%char →
  replace_from " 0" " " 0 (String c rest)
    = String c (replace_from " 0" " " 0 rest).
Proof.
  intros Hc. simpl. by rewrite bool_decide_false by congruence.
Qed.

Lemma replace_zero_blank c rest :
  c ≠ "0"%char →
  replace_from " 0" " " 0 (String " " (String c rest))
    = String " " (replace_from " 0" " " 0 (String c rest)).
Proof.
  intros Hc. cbn [replace_from startswith].
  rewrite bool_decide_true by done.
  by rewrite (bool_decide_false ("0"%char = c)) by congruence.
Qed.

Lemma replace_zero_plain_number a rest :
  plain_number a = true →
  replace_from " 0" " " 0 (String " " (a +:+ rest))
    = String " " (a +:+ replace_from " 0" " " 0 rest).
Proof.
  destruct a as [|c a]; [done|]. unfold plain_number.
  intros [Hc Ha]%andb_prop. apply negb_true_iff, bool_decide_eq_false in Hc.
  change (String c a +:+ rest) with (String c (a +:+ rest)).
  rewrite replace_zero_blank by done.
  change (String c (a +:+ rest)) with (String c a +:+ rest).
  by rewrite replace_zero_spaceless.
Qed.

(** The blank before a two-digit field swallows the zero it is padded
    with. *)
Lemma replace_zero_padded n rest :
  1 ≤ n ≤ 31 →
  replace_from " 0" " " 0 (String " " (pad2 n +:+ rest))
    = String " " (str_int n +:+ replace_from " 0" " " 0 rest).
Proof.
  intros Hn.
  assert (Hcases : Exists (λ k, n = k) (seqZ 1 31)).
  { apply Exists_exists. exists n. split; [|done]. apply elem_of_seqZ. lia. }
  vm_compute seqZ in Hcases.
  repeat (apply Exists_cons in Hcases as [->|Hcases]; [by vm_compute|]).
  by apply Exists_nil in Hcases.
Qed.

Lemma year_is_plain_number y :
  1000 ≤ y ≤ 9999 → plain_number (str_int y) = true.
Proof.
  intros Hy. apply (forallb_seqZ (λ y, plain_number (str_int y)) 1000 9000);
    [by vm_compute|lia].
Qed.

Lemma month_name_spaceless m : 1 ≤ m ≤ 12 → spaceless (month_name m) = true.
Proof.
  intros Hm. apply (forallb_seqZ (λ m, spaceless (month_name m)) 1 12);
    [by vm_compute|lia].
Qed.

Lemma day_abbr_spaceless w : 0 ≤ w < 7 → spaceless (day_abbr w) = true.
Proof.
  intros Hw. apply (forallb_seqZ (λ w, spaceless (day_abbr w)) 0 7);
    [by vm_compute|lia].
Qed.

Lemma minute_spaceless n : 0 ≤ n ≤ 59 → spaceless (pad2 n) = true.
Proof.
  intros Hn. apply (forallb_seqZ (λ n, spaceless (pad2 n)) 0 60);
    [by vm_compute|lia].
Qed.

Lemma days_in_month_le_31 y m : days_in_month y m ≤ 31.
Proof.
  unfold days_in_month. destruct m as [|p|p]; [lia| |lia].
  do 4 (try destruct p as [p|p|]); try destruct (is_leap y); lia.
Qed.

Lemma valid_bounds d :
  valid d = true →
  1 ≤ year d ≤ 9999 ∧ 1 ≤ month d ≤ 12 ∧ 1 ≤ day d ≤ 31 ∧
  0 ≤ hour d ≤ 23 ∧ 0 ≤ minute d ≤ 59.
Proof.
  unfold valid. rewrite !andb_true_iff, !Z.leb_le.
  pose proof (days_in_month_le_31 (year d) (month d)). lia.
Qed.

Lemma hour12_range h : 0 ≤ h ≤ 23 → 1 ≤ hour12 h ≤ 12.
Proof.
  intros Hh. unfold hour12. pose proof (Z.mod_pos_bound h 12).
  destruct (Z.eqb_spec (h mod 12) 0); lia.
Qed.

Lemma strftime_notification d :
  strftime d "%B %d, %Y (%a) @ %I:%M %p"
    = month_name (month d)
      +:+ String " " (pad2 (day d)
      +:+ String "," (String " " (str_int (year d)
      +:+ String " " (String "(" (day_abbr (weekday d)
      +:+ String ")" (String " " (String "@" (String " " (pad2 (hour12 (hour d))
      +:+ String ":" (pad2 (minute d)
      +:+ String " " ((if hour d <? 12 then "AM" else "PM") +:+ ""))))))))))).
Proof. reflexivity. Qed.

(** X13.  The line of a valid timeslot (of a year with four digits) reads
    month name, day, year, weekday, hour on the 12-hour clock, minute and
    AM or PM: the zero that pads the day is dropped, and so is the zero that
    pads the hour, while the minute keeps its two digits. *)
Theorem timeslot_line d :
  valid d = true → 1000 ≤ year d →
  timeslot_text d
    = "    " +:+ month_name (month d) +:+ " " +:+ str_int (day d) +:+ ", "
      +:+ str_int (year d) +:+ " (" +:+ day_abbr (weekday d) +:+ ") @ "
      +:+ str_int (hour12 (hour d)) +:+ ":" +:+ pad2 (minute d) +:+ " "
      +:+ (if hour d <? 12 then "AM" else "PM").
Proof.
  intros (Hy & Hm & Hd & Hh & Hmin)%valid_bounds Hy4.
  unfold timeslot_text, replace. rewrite strftime_notification.
  rewrite replace_zero_spaceless by by apply month_name_spaceless.
  rewrite replace_zero_padded by done.
  rewrite replace_zero_char by done.
  rewrite replace_zero_plain_number by (apply year_is_plain_number; lia).
  rewrite replace_zero_blank by done.
  rewrite replace_zero_char by done.
  rewrite replace_zero_spaceless
    by (apply day_abbr_spaceless, Z.mod_pos_bound; lia).
  rewrite replace_zero_char by done.
  rewrite replace_zero_blank by done.
  rewrite replace_zero_char by done.
  rewrite replace_zero_padded by (pose proof (hour12_range _ Hh); lia).
  rewrite replace_zero_char by done.
  rewrite replace_zero_spaceless by by apply minute_spaceless.
  assert (Hend : ∀ s : string, s = "AM" ∨ s = "PM" →
    replace_from " 0" " " 0 (String " " (s +:+ "")) = String " " s).
  { by intros s [-> | ->]. }
  rewrite Hend by (destruct (hour d <? 12); auto).
  reflexivity.
Qed.

Lemma timeslot_line_witness :
  timeslot_text (mk_datetime 2024 12 5 0 7)
    = "    December 5, 2024 (Thu) @ 12:07 AM".
Proof.
  rewrite (timeslot_line (mk_datetime 2024 12 5 0 7)); [|done|simpl; lia].
  by vm_compute.
Defined.

(** ** More sample inputs *)

Lemma fetch_ignores_order_and_repeats_witness :
  (get_timeslots_for_location_id 5446 10 (fresh busy_remote (λ _, 0))).1
    = (get_timeslots_for_location_id 5446 10
         (fresh (λ _ _, reply 200
                          [slot "2024-03-05T09:00"; slot "2024-02-29T23:59";
                           slot "2024-03-01T00:00"])
                (λ _, 0))).1.
Proof.
  refine (proj1 (fetch_ignores_order_and_repeats 5446 10
                   (fresh busy_remote (λ _, 0))
                   (fresh (λ _ _, reply 200
                                    [slot "2024-03-05T09:00";
                                     slot "2024-02-29T23:59";
                                     slot "2024-03-01T00:00"])
                          (λ _, 0))
                   _ _ _ _ _ _
                   [mk_datetime 2024 3 1 0 0; mk_datetime 2024 2 29 23 59;
                    mk_datetime 2024 3 5 9 0; mk_datetime 2024 2 29 23 59]
                   [mk_datetime 2024 3 5 9 0; mk_datetime 2024 2 29 23 59;
                    mk_datetime 2024 3 1 0 0]
                   eq_refl eq_refl eq_refl eq_refl eq_refl eq_refl
                   eq_refl eq_refl _ _ _));
    try by vm_compute.
  intros t. rewrite !elem_of_cons, !elem_of_nil. tauto.
Defined.

Lemma round_lists_are_increasing_and_before_cutoff_witness :
  StronglySorted DateTime.lt
    [mk_datetime 2024 2 29 23 59; mk_datetime 2024 3 1 0 0] ∧
  ∀ t, t ∈ [mk_datetime 2024 2 29 23 59; mk_datetime 2024 3 1 0 0] →
    DateTime.lt t (mk_datetime 2024 3 2 0 0).
Proof.
  pose (w := fresh busy_remote (λ _, 0)).
  pose (round :=
    get_timeslots_for_location_ids [5446] (Some "2024-03-02") 10 w).
  destruct (round_lists_are_increasing_and_before_cutoff
              [5446] (Some "2024-03-02") 10 w
              [(5446, [mk_datetime 2024 2 29 23 59; mk_datetime 2024 3 1 0 0])]
              round.2)
    with (location_id := 5446)
         (timeslots := [mk_datetime 2024 2 29 23 59; mk_datetime 2024 3 1 0 0])
    as (Hsorted & _ & Hcut); [by vm_compute|by left|].
  split; [exact Hsorted|].
  apply (Hcut "2024-03-02" (mk_datetime 2024 3 2 0 0) eq_refl). by vm_compute.
Defined.
